(** * Manifold primitives of pymanopt: Stiefel, FixedRankEmbedded, Product

    A shallow embedding of [pymanopt/manifolds/stiefel.py],
    [pymanopt/manifolds/fixed_rank.py] and [pymanopt/manifolds/product.py].

    Conventions of the embedding.
    - Python integers are [Z]; Python strings are [string].
    - numpy float64 arrays are matrices over the real numbers [R]: a 2-D
      array of shape (m, n) is ['M[R]_(m, n)], a 1-D array of length n is
      ['rV[R]_n], a 3-D array of shape (k, m, n) is a finite function
      [{ffun 'I_k -> 'M[R]_(m, n)}].  The rounding of array arithmetic is
      not modelled: every statement about arrays is about exact real
      arithmetic.
    - The Python floats of the constructors are binary64 numbers, with their
      rounding and their overflow (module [float64]).
    - The LAPACK-backed routines [np.linalg.qr], [np.linalg.svd] and
      [scipy.linalg.expm] are parameters of the sections that use them; what
      a theorem needs of them is stated as a contract on the calls made.
    - Random draws ([np.random.randn], [np.random.rand]) are explicit
      arguments.
    - A raised exception is the [Raise] case of [result].
    - The conversion of an int to text has no limit on the number of
      digits (the default before Python 3.11). *)

From HB Require Import structures.
From Stdlib Require Import ZArith String Lia DecimalString.
From Stdlib Require Import Reals Lra ClassicalEpsilon FunctionalExtensionality.
From mathcomp Require Import boot order algebra.

Set Implicit Arguments.
Unset Strict Implicit.
Unset Printing Implicit Defensive.

Import Order.TTheory GRing.Theory Num.Theory.

Delimit Scope Z_scope with Z.

(** ** The real numbers as a MathComp ordered field

    Matrices of MathComp are over a ring structure; the instances below put
    that structure on the real numbers of the Standard Library, so that
    [sqrt] and [Rpower] are available on matrix entries. *)

Definition eqr (x y : R) : bool :=
  if Req_dec_T x y is left _ then true else false.

Lemma eqrP : Equality.axiom eqr.
Proof. by move=> x y; rewrite /eqr; case: Req_dec_T => h; constructor. Qed.

HB.instance Definition _ := hasDecEq.Build R eqrP.

Definition pickR (P : pred R) (n : nat) : option R :=
  match excluded_middle_informative (exists x, P x) with
  | left ex => Some (proj1_sig (constructive_indefinite_description _ ex))
  | right _ => None
  end.

Lemma pickR_some P n x : pickR P n = Some x -> P x.
Proof.
rewrite /pickR; case: excluded_middle_informative => // ex [<-].
exact: (proj2_sig (constructive_indefinite_description _ ex)).
Qed.

Lemma pickR_ex (P : pred R) : (exists x, P x) -> exists n, pickR P n.
Proof.
by move=> ex; exists 0%N; rewrite /pickR; case: excluded_middle_informative.
Qed.

Lemma pickR_ext (P Q : pred R) : P =1 Q -> pickR P =1 pickR Q.
Proof. by move=> /functional_extensionality ->. Qed.

HB.instance Definition _ := hasChoice.Build R pickR_some pickR_ex pickR_ext.

Lemma RplusA : associative Rplus.
Proof. by move=> x y z; rewrite Rplus_assoc. Qed.

HB.instance Definition _ :=
  GRing.isZmodule.Build R RplusA Rplus_comm Rplus_0_l Rplus_opp_l.

Lemma RmultA : associative Rmult.
Proof. by move=> x y z; rewrite Rmult_assoc. Qed.

Lemma R1_neq0 : R1 != 0%R :> R.
Proof. by apply/eqP; exact: R1_neq_R0. Qed.

HB.instance Definition _ :=
  GRing.Zmodule_isComNzRing.Build R RmultA Rmult_comm Rmult_1_l
    Rmult_plus_distr_r R1_neq0.

Lemma RmulVf (x : R) : x != 0%R -> (Rinv x * x = 1)%R.
Proof. by move/eqP => x0; apply: Rinv_l. Qed.

HB.instance Definition _ := GRing.ComNzRing_isField.Build R RmulVf Rinv_0.

Definition Rleb (x y : R) : bool :=
  if Rle_dec x y is left _ then true else false.
Definition Rltb (x y : R) : bool :=
  if Rlt_dec x y is left _ then true else false.

Lemma RlebP x y : reflect (Rle x y) (Rleb x y).
Proof. by rewrite /Rleb; case: Rle_dec => h; constructor. Qed.

Lemma RltbP x y : reflect (Rlt x y) (Rltb x y).
Proof. by rewrite /Rltb; case: Rlt_dec => h; constructor. Qed.

Lemma Rle0_add x y : Rleb 0%R x -> Rleb 0%R y -> Rleb 0%R (x + y)%R.
Proof.
by move=> /RlebP hx /RlebP hy; apply/RlebP; exact: Rplus_le_le_0_compat.
Qed.

Lemma Rle0_mul x y : Rleb 0%R x -> Rleb 0%R y -> Rleb 0%R (x * y)%R.
Proof. by move=> /RlebP hx /RlebP hy; apply/RlebP; exact: Rmult_le_pos. Qed.

Lemma Rle0_anti x : Rleb 0%R x -> Rleb x 0%R -> x = 0%R.
Proof. by move=> /RlebP hx /RlebP hy; exact: Rle_antisym. Qed.

Lemma Rsub_ge0 x y : Rleb 0%R (y - x)%R = Rleb x y.
Proof.
apply/RlebP/RlebP => h.
- have h' : Rle R0 (Rminus y x) := h.
  Lra.lra.
- change (Rle R0 (Rminus y x)); Lra.lra.
Qed.

Lemma Rle0_total x : Rleb 0%R x || Rleb x 0%R.
Proof.
apply/orP; case: (Rle_lt_dec R0 x) => h; [left|right]; apply/RlebP => //.
exact: Rlt_le.
Qed.

Lemma RnormN x : Rabs (- x)%R = Rabs x.
Proof. exact: Rabs_Ropp. Qed.

Lemma Rge0_norm x : Rleb 0%R x -> Rabs x = x.
Proof. by move=> /RlebP h; apply: Rabs_pos_eq. Qed.

Lemma Rlt_def x y : Rltb x y = (y != x) && Rleb x y.
Proof.
apply/RltbP/andP.
- move=> h; split; [apply/eqP => e|apply/RlebP; exact: Rlt_le].
  by rewrite e in h; exact: (Rlt_irrefl _ h).
- by case=> /eqP h1 /RlebP h2; case: h2 => // e; case: h1.
Qed.

HB.instance Definition _ :=
  Num.IntegralDomain_isLeReal.Build R Rle0_add Rle0_mul Rle0_anti Rsub_ge0
    Rle0_total RnormN Rge0_norm Rlt_def.

(** ** Python values shared by the three classes *)

Inductive exception : Type :=
  | ValueError (msg : string)
  | AttributeError (msg : string)
  | UnboundLocalError (msg : string)
  | TypeError (msg : string)
  | OverflowError (msg : string).

Inductive result (A : Type) : Type :=
  | Ok (a : A)
  | Raise (e : exception).

Arguments Ok {A} a.
Arguments Raise {A} e.

Definition bind {A B : Type} (r : result A) (f : A -> result B) : result B :=
  match r with
  | Ok a => f a
  | Raise e => Raise e
  end.

Notation "x <- r ;; k" := (bind r (fun x => k))
  (at level 100, r at next level, right associativity).

Definition is_ValueError {A : Type} (r : result A) : bool :=
  if r is Raise (ValueError _) then true else false.

Definition is_AttributeError {A : Type} (r : result A) : bool :=
  if r is Raise (AttributeError _) then true else false.

Definition is_OverflowError {A : Type} (r : result A) : bool :=
  if r is Raise (OverflowError _) then true else false.

Definition is_Ok {A : Type} (r : result A) : bool :=
  if r is Ok _ then true else false.

(** [str(z)] and the [{z}] field of an f-string, for an integer. *)
Definition str (z : Z) : string := NilZero.string_of_int (Z.to_int z).

(** A [point_layout]: an integer or a tuple of layouts. *)
Inductive layout : Type :=
  | LInt (z : Z)
  | LTuple (ls : seq layout).

(** ** Python floats

    A Python float is an IEEE 754 binary64 number.  The constructors compute
    with floats that come from integers and one division by 2: such a float
    is a dyadic number [m * 2^e] with [e >= -1], an infinity or nan, and
    gradual underflow never comes into play. *)

Module float64.

Inductive t : Type :=
  | Finite (m e : Z)
  | Inf (negative : bool)
  | NaN.

(** [int.bit_length]. *)
Definition bit_length (m : Z) : Z :=
  if (m =? 0)%Z then 0%Z else (Z.log2 (Z.abs m) + 1)%Z.

(** The float nearest to [m * 2^e]: 53 significant bits, ties to the even
    significand; a result of 2^1024 or more in magnitude is an infinity. *)
Definition round (m e : Z) : t :=
  let s := Z.max 0 (bit_length m - 53) in
  let a := Z.abs m in
  let q := Z.shiftr a s in
  let r := (a - Z.shiftl q s)%Z in
  let half := Z.shiftl 1 (s - 1) in
  let q' :=
    if ((0 <? s) && ((half <? r) || ((half =? r) && Z.odd q)))%Z
    then (q + 1)%Z else q in
  if (negb (q' =? 0) && (1024 <? bit_length q' + (e + s)))%Z
  then Inf (m <? 0)%Z
  else Finite (Z.sgn m * q') (e + s).

(** The conversion of an int operand of a float operation. *)
Definition of_int (z : Z) : result t :=
  match round z 0 with
  | Finite m e => Ok (Finite m e)
  | _ => Raise (OverflowError "int too large to convert to float")
  end.

(** [a / 2] for an int [a]: true division, correctly rounded. *)
Definition int_truediv_2 (a : Z) : result t :=
  match round a (-1) with
  | Finite m e => Ok (Finite m e)
  | _ => Raise (OverflowError "integer division result too large for a float")
  end.

(** [x - y] on floats. *)
Definition sub (x y : t) : t :=
  match x, y with
  | Finite m1 e1, Finite m2 e2 =>
      let e := Z.min e1 e2 in
      round (m1 * 2 ^ (e1 - e) - m2 * 2 ^ (e2 - e)) e
  | Finite _ _, Inf s => Inf (negb s)
  | Inf s, Finite _ _ => Inf s
  | Inf s1, Inf s2 => if Bool.eqb s1 s2 then NaN else Inf s1
  | _, _ => NaN
  end.

(** [x * y] on floats. *)
Definition mul (x y : t) : t :=
  match x, y with
  | Finite m1 e1, Finite m2 e2 => round (m1 * m2) (e1 + e2)
  | Finite m _, Inf s | Inf s, Finite m _ =>
      if (m =? 0)%Z then NaN else Inf (xorb s (m <? 0)%Z)
  | Inf s1, Inf s2 => Inf (xorb s1 s2)
  | _, _ => NaN
  end.

(** [int(x)]: truncation towards zero. *)
Definition to_int (x : t) : result Z :=
  match x with
  | Finite m e =>
      Ok (if (0 <=? e)%Z then m * 2 ^ e else Z.quot m (2 ^ (- e)))%Z
  | Inf _ => Raise (OverflowError "cannot convert float infinity to integer")
  | NaN => Raise (ValueError "cannot convert float NaN to integer")
  end.

End float64.

Module Manifold.

(** Modelled from the spec: the base classes [Manifold] and
    [EuclideanEmbeddedSubmanifold] of [pymanopt/manifolds/manifold.py] are
    not among the sources.  The spec (sections 3, 4.1 and 6) has a manifold
    own only static data fixed at construction: its name, its dimension
    ([dim]) and its [point_layout] (1 unless given), all read-only. *)
Record t : Type := Make {
  _name : string;
  _dimension : Z;
  _point_layout : layout
}.

Definition __init__ (name : string) (dimension : Z) (point_layout : layout)
  : t := Make name dimension point_layout.

End Manifold.

Local Open Scope ring_scope.

(** ** numpy *)

Module np.

(** [np.sign] on a scalar: -1, 0 or 1. *)
Definition sign (x : R) : R := Num.sg x.

(** The literal [0.5]. *)
Definition half : R := 2%:R^-1.

(** [np.spacing(1)], the gap between 1.0 and the next float64: 2^-52. *)
Definition spacing1 : R := 2%:R ^- 52.

(** [np.sqrt] on a scalar. *)
Definition sqrt (x : R) : R := R_sqrt.sqrt x.

(** [x ** y] for floats [x > 0]. *)
Definition pow (x y : R) : R := Rpower x y.

(** [np.diag(A)] for a square 2-D array: the 1-D array of its diagonal. *)
Definition diag (p : nat) (A : 'M[R]_p) : 'rV[R]_p := \row_i A i i.

(** [np.diag(v)] for a 1-D array is [diag_mx v]; [np.eye(p)] is [1%:M];
    [np.zeros((m, n))] is [0]; [A.T] is [A^T]; [A @ B] is [A *m B];
    [np.hstack((A, B))] is [row_mx A B]; [np.vstack((A, B))] is
    [col_mx A B]; [np.bmat([[A, B], [C, D]])] is [block_mx A B C D]. *)

(** [np.tensordot(G, H, axes=2)] on 2-D arrays (also the default [axes]). *)
Definition tensordot2 (m n : nat) (G H : 'M[R]_(m, n)) : R :=
  \sum_i \sum_j G i j * H i j.

(** [np.tensordot(G, H, axes=3)] on 3-D arrays. *)
Definition tensordot3 (k m n : nat) (G H : {ffun 'I_k -> 'M[R]_(m, n)}) : R :=
  \sum_b \sum_i \sum_j G b i j * H b i j.

(** [np.linalg.norm(G)] on a 2-D array: the Frobenius norm. *)
Definition norm2 (m n : nat) (G : 'M[R]_(m, n)) : R :=
  sqrt (\sum_i \sum_j G i j ^+ 2).

(** [np.linalg.norm(G)] on a 3-D array: the 2-norm of the flattened array. *)
Definition norm3 (k m n : nat) (G : {ffun 'I_k -> 'M[R]_(m, n)}) : R :=
  sqrt (\sum_b \sum_i \sum_j G b i j ^+ 2).

(** [A[i] = v] on a 3-D array, as a functional update. *)
Definition setitem (k : nat) (T : Type) (A : {ffun 'I_k -> T}) (i : 'I_k)
  (v : T) : {ffun 'I_k -> T} := [ffun j => if j == i then v else A j].

(** [np.sort(v)] on a 1-D array: ascending. *)
Definition sort (k : nat) (v : 'rV[R]_k) : 'rV[R]_k :=
  \row_i nth 0 (path.sort <=%O [seq v 0 j | j <- enum 'I_k]) i.

(** [v[::-1]] on a 1-D array. *)
Definition reversed (k : nat) (v : 'rV[R]_k) : 'rV[R]_k :=
  \row_i v 0 (rev_ord i).

(** [np.sum(l)] for a list of Python ints, where the default integer is
    int64.  The list becomes an int64 array when every entry fits, else a
    uint64 array when every entry is in [0, 2^64): the sum wraps around in
    both.  With a negative entry beside one of 2^63 or more (and with no
    entry at all) it becomes a float64 array, and the sum is a float, kept
    here as the entries it is the sum of.  With an entry beyond these ranges
    it becomes an array of Python ints, whose sum is exact. *)
Inductive sum_result : Type :=
  | SumInt (z : Z)
  | SumFloat64 (entries : seq Z).

Definition sum (l : seq Z) : sum_result :=
  let s := foldr Z.add 0%Z l in
  if nilp l then SumFloat64 l
  else if all (fun z => (- 2 ^ 63 <=? z) && (z <? 2 ^ 63))%Z l then
    SumInt ((s + 2 ^ 63) mod 2 ^ 64 - 2 ^ 63)%Z
  else if all (fun z => (0 <=? z) && (z <? 2 ^ 64))%Z l then
    SumInt (s mod 2 ^ 64)%Z
  else if all (fun z => (- 2 ^ 63 <=? z) && (z <? 2 ^ 64))%Z l then
    SumFloat64 l
  else SumInt s.

End np.

(** ** pymanopt.tools.multi *)

Module multi.

(** The array of a Stiefel point or tangent: of shape (m, n) when the block
    count is 1, of shape (k, m, n) otherwise (the class docstring of
    [Stiefel]). *)
Definition ndarray (k m n : nat) : lmodType R :=
  match k with
  | 1%N => 'M[R]_(m, n)
  | _ => {ffun 'I_k -> 'M[R]_(m, n)}
  end.

(** Modelled from the spec: [multiprod], [multitransp] and [multisym] of
    [pymanopt/tools/multi.py] are not among the sources.  The spec (4.2) has
    [proj] be [U - X sym(Xt U)] with [sym(A) = (A + At)/2], "applied per
    block when k > 1": the three helpers are the matrix product, the
    transpose and [sym], on a 2-D array or on each block of a 3-D array. *)
Definition multiprod (k m n p : nat)
  : ndarray k m n -> ndarray k n p -> ndarray k m p :=
  match k with
  | 1%N => fun A B => A *m B
  | _ => fun A B => [ffun i => A i *m B i]
  end.

Definition multitransp (k m n : nat) : ndarray k m n -> ndarray k n m :=
  match k with
  | 1%N => fun A => A^T
  | _ => fun A => [ffun i => (A i)^T]
  end.

Definition multisym (k n : nat) (A : ndarray k n n) : ndarray k n n :=
  np.half *: (A + multitransp A).

End multi.

(** ** pymanopt.manifolds.stiefel *)

Module Stiefel.

Import multi.

Record t : Type := Make {
  _n : Z;
  _p : Z;
  _k : Z;
  base : Manifold.t
}.

(** [Stiefel.__init__(self, n, p, k=1)].  The dimension
    [int(k * (n * p - p * (p + 1) / 2))] is computed in floats: the division
    gives a float, the int operands [n * p] and [k] are converted, and each
    of these steps or the final [int] raises an [OverflowError] beyond the
    range of the floats. *)
Definition __init__ (n p k : Z) : result t :=
  if ((n <? p) || (p <? 1))%Z then
    Raise (ValueError ("Need n >= p >= 1. Values supplied were n = "
                       ++ str n ++ " and p = " ++ str p)%string)
  else if (k <? 1)%Z then
    Raise (ValueError ("Need k >= 1. Value supplied was k = " ++ str k)%string)
  else
    let name :=
      if (k =? 1)%Z then
        Some ("Stiefel manifold St(" ++ str n ++ "," ++ str p ++ ")")%string
      else if (k >=? 2)%Z then
        Some ("Product Stiefel manifold St(" ++ str n ++ "," ++ str p ++ ")^"
              ++ str k)%string
      else None in
    half <- float64.int_truediv_2 (p * (p + 1))%Z ;;
    n_p <- float64.of_int (n * p)%Z ;;
    let difference := float64.sub n_p half in
    k' <- float64.of_int k ;;
    dimension <- float64.to_int (float64.mul k' difference) ;;
    if name is Some name then
      Ok (Make n p k (Manifold.__init__ name dimension (LInt 1)))
    else Raise (UnboundLocalError "name").

(** [Stiefel.typicaldist]. *)
Definition typicaldist (self : t) : R := np.sqrt (IZR (_p self * _k self)).

(** The shape parameters as array dimensions. *)
Definition shape (self : t) : nat * nat * nat :=
  (Z.to_nat (_k self), Z.to_nat (_n self), Z.to_nat (_p self)).

Section Operations.

(** [np.linalg.qr] in its default reduced mode, on an (n, p) array with
    [p <= n]: the pair (q, r) with q of shape (n, p), r of shape (p, p). *)
Variable qr : forall n p : nat, 'M[R]_(n, p) -> 'M[R]_(n, p) * 'M[R]_p.

(** [scipy.linalg.expm]. *)
Variable expm : forall d : nat, 'M[R]_d -> 'M[R]_d.

(** [self._n], [self._p]. *)
Variables (n p : nat).

(** [np.diag(np.sign(np.sign(np.diag(r)) + 0.5))], which both branches of
    [retr] multiply [q] by. *)
Definition unflip (r : 'M[R]_p) : 'M[R]_p :=
  diag_mx (map_mx np.sign (map_mx np.sign (np.diag r) + const_mx np.half)).

(** [Stiefel.inner]: [np.tensordot(G, H, axes=G.ndim)]. *)
Definition inner (k : nat) (X G H : ndarray k n p) : R :=
  match k return ndarray k n p -> ndarray k n p -> R with
  | 1%N => fun G H => np.tensordot2 G H
  | _ => fun G H => np.tensordot3 G H
  end G H.

(** [Stiefel.proj]. *)
Definition proj (k : nat) (X U : ndarray k n p) : ndarray k n p :=
  U - multiprod X (multisym (multiprod (multitransp X) U)).

(** [Stiefel.ehess2rhess]. *)
Definition ehess2rhess (k : nat) (X egrad ehess H : ndarray k n p)
  : ndarray k n p :=
  let XtG := multiprod (multitransp X) egrad in
  let symXtG := multisym XtG in
  let HsymXtG := multiprod H symXtG in
  proj X (ehess - HsymXtG).

(** [Stiefel.retr]: branch [self._k == 1], and the loop over the blocks of
    the new array [X + G] otherwise. *)
Definition retr (k : nat) : ndarray k n p -> ndarray k n p -> ndarray k n p :=
  match k with
  | 1%N => fun X G =>
      let: (q, r) := qr (X + G) in
      q *m unflip r
  | _ => fun X G =>
      foldl (fun (XNew : {ffun 'I__ -> 'M[R]_(n, p)}) i =>
               let: (q, r) := qr (XNew i) in
               np.setitem XNew i (q *m unflip r))
            (X + G) (enum 'I__)
  end.

(** [Stiefel.norm]: [np.linalg.norm(G)]. *)
Definition norm (k : nat) (X G : ndarray k n p) : R :=
  match k return ndarray k n p -> R with
  | 1%N => fun G => np.norm2 G
  | _ => fun G => np.norm3 G
  end G.

(** [Stiefel.rand].  [randn] holds the draws of
    [np.random.randn(self._n, self._p)]: the one draw when [self._k == 1],
    the draw of iteration [i] otherwise. *)
Definition rand (k : nat) : ndarray k n p -> ndarray k n p :=
  match k with
  | 1%N => fun randn =>
      let X := randn in
      let: (q, r) := qr X in
      q
  | _ => fun randn =>
      foldl (fun (X : {ffun 'I__ -> 'M[R]_(n, p)}) i =>
               let: (q, r) := qr (randn i) in
               np.setitem X i q)
            0 (enum 'I__)
  end.

(** [Stiefel.randvec].  [randn] is the draw of
    [np.random.randn( *np.shape(X))].  Division by a zero norm gives 0 here
    and nan in numpy. *)
Definition randvec (k : nat) (randn X : ndarray k n p) : ndarray k n p :=
  let U := randn in
  let U := proj X U in
  let U := (norm X U)^-1 *: U in
  U.

(** [Stiefel.transp]. *)
Definition transp (k : nat) (x1 x2 d : ndarray k n p) : ndarray k n p :=
  proj x2 d.

(** One evaluation of the geodesic formula of [Stiefel.exp], on a block. *)
Definition exp_block (X U : 'M[R]_(n, p)) : 'M[R]_(n, p) :=
  let W := expm (block_mx (X^T *m U) (- U^T *m U) 1%:M (X^T *m U)) in
  let Z := col_mx (expm (- X^T *m U)) (0 : 'M[R]_p) in
  row_mx X U *m W *m Z.

(** [Stiefel.exp]. *)
Definition exp (k : nat) : ndarray k n p -> ndarray k n p -> ndarray k n p :=
  match k with
  | 1%N => fun X U => exp_block X U
  | _ => fun X U =>
      foldl (fun (Y : {ffun 'I__ -> 'M[R]_(n, p)}) i =>
               np.setitem Y i (exp_block (X i) (U i)))
            0 (enum 'I__)
  end.

(** [Stiefel.zerovec]. *)
Definition zerovec (k : nat) (X : ndarray k n p) : ndarray k n p := 0.

End Operations.

End Stiefel.

(** ** pymanopt.manifolds.fixed_rank *)

Module FixedRankEmbedded.

Record t : Type := Make {
  _m : Z;
  _n : Z;
  _k : Z;
  _stiefel_m : Stiefel.t;
  _stiefel_n : Stiefel.t;
  base : Manifold.t
}.

(** [FixedRankEmbedded.__init__(self, m, n, k)]: the two [Stiefel]
    constructions run first and their exceptions propagate. *)
Definition __init__ (m n k : Z) : result t :=
  stiefel_m <- Stiefel.__init__ m k 1 ;;
  stiefel_n <- Stiefel.__init__ n k 1 ;;
  let name := ("Embedded manifold of " ++ str m ++ "x" ++ str n
               ++ " matrices of rank " ++ str k)%string in
  let dimension := ((m + n - k) * k)%Z in
  Ok (Make m n k stiefel_m stiefel_n
        (Manifold.__init__ name dimension (LInt 3))).

(** [FixedRankEmbedded.typicaldist]. *)
Definition typicaldist (self : t) : Z := Manifold._dimension (base self).

Section Operations.

(** [np.linalg.qr], as in [Stiefel]. *)
Variable qr : forall n p : nat, 'M[R]_(n, p) -> 'M[R]_(n, p) * 'M[R]_p.

(** [np.linalg.svd(T, full_matrices=False)] on a square array: the triple
    (Ut, St, Vt) with St a 1-D array. *)
Variable svd : forall d : nat, 'M[R]_d -> 'M[R]_d * 'rV[R]_d * 'M[R]_d.

(** [self._m], [self._n], [self._k]. *)
Variables (m n k : nat).

(** A point: the tuple [(u, s, vt)], read as [X[0]], [X[1]], [X[2]]. *)
Record point : Type := Point {
  item0 : 'M[R]_(m, k);
  item1 : 'rV[R]_k;
  item2 : 'M[R]_(k, n)
}.

(** [_FixedRankTangentVector]: the named tuple [(Up, M, Vp)]. *)
Record _FixedRankTangentVector : Type := TangentVector {
  Up : 'M[R]_(m, k);
  M : 'M[R]_k;
  Vp : 'M[R]_(n, k)
}.

(** The second argument of [proj]: an (m, n) array, or a list or tuple of
    three arrays [(Uz, Sz, Vz)], read as [Z[0]], [Z[1]], [Z[2]], whose
    product [Uz @ Sz @ Vz.T] is (m, n). *)
Inductive ambient : Type :=
  | Dense (Z : 'M[R]_(m, n))
  | Factors (r : nat) (Uz : 'M[R]_(m, r)) (Sz : 'M[R]_r) (Vz : 'M[R]_(n, r)).

(** A [_FixedRankTangentVector] is a tuple: passed where an ambient vector
    is expected, it takes the [isinstance(Z, (list, tuple))] branches. *)
Definition as_tuple (Z : _FixedRankTangentVector) : ambient :=
  Factors (Up Z) (M Z) (Vp Z).

(** [FixedRankEmbedded.inner]: the sum of the three [np.tensordot(a, b)]. *)
Definition inner (X : point) (G H : _FixedRankTangentVector) : R :=
  0 + np.tensordot2 (Up G) (Up H) + np.tensordot2 (M G) (M H)
    + np.tensordot2 (Vp G) (Vp H).

(** [FixedRankEmbedded._apply_ambient]. *)
Definition _apply_ambient (c : nat) (Z : ambient) (W : 'M[R]_(n, c))
  : 'M[R]_(m, c) :=
  match Z with
  | Factors _ Uz Sz Vz => Uz *m Sz *m Vz^T *m W
  | Dense Z => Z *m W
  end.

(** [FixedRankEmbedded._apply_ambient_transpose]. *)
Definition _apply_ambient_transpose (c : nat) (Z : ambient) (W : 'M[R]_(m, c))
  : 'M[R]_(n, c) :=
  match Z with
  | Factors _ Uz Sz Vz => Vz *m Sz *m Uz^T *m W
  | Dense Z => Z^T *m W
  end.

(** [FixedRankEmbedded.proj]. *)
Definition proj (X : point) (Z : ambient) : _FixedRankTangentVector :=
  let ZV := _apply_ambient Z (item2 X)^T in
  let UtZV := (item0 X)^T *m ZV in
  let ZtU := _apply_ambient_transpose Z (item0 X) in
  let Up := ZV - item0 X *m UtZV in
  let M := UtZV in
  let Vp := ZtU - (item2 X)^T *m UtZV^T in
  TangentVector Up M Vp.

(** [FixedRankEmbedded.egrad2rgrad].  [egrad] is the tuple
    [(df/dU, df/dS, df/dV)], of the shapes of a point.  Dividing an (m, k)
    array by the 1-D array [x[1]] divides column [j] by [x[1][j]];
    [x[1][np.newaxis, :]] varies along the columns and [x[1][:, np.newaxis]]
    along the rows.  Division by zero gives 0 here, and inf or nan in
    numpy. *)
Definition egrad2rgrad (x : point)
  (egrad : 'M[R]_(m, k) * 'rV[R]_k * 'M[R]_(k, n)) : _FixedRankTangentVector :=
  let: (egrad0, egrad1, egrad2) := egrad in
  let utdu := (item0 x)^T *m egrad0 in
  let uutdu := item0 x *m utdu in
  let Up := \matrix_(i, j) ((egrad0 - uutdu) i j / item1 x 0 j) in
  let vtdv := item2 x *m egrad2^T in
  let vvtdv := (item2 x)^T *m vtdv in
  let Vp := \matrix_(i, j) ((egrad2^T - vvtdv) i j / item1 x 0 j) in
  let i := (1%:M : 'M[R]_k) in
  let f : 'M[R]_k :=
    \matrix_(a, b) (1 / (item1 x 0 b ^+ 2 - item1 x 0 a ^+ 2 + i a b)) in
  let M : 'M[R]_k :=
    \matrix_(a, b) (f a b * (utdu - utdu^T) a b * item1 x 0 b)
    + \matrix_(a, b) (item1 x 0 a * f a b * (vtdv - vtdv^T) a b)
    + diag_mx egrad1 in
  TangentVector Up M Vp.

(** [FixedRankEmbedded.retr]. *)
Definition retr (X : point) (Z : _FixedRankTangentVector) : point :=
  let: (Qu, Ru) := qr (Up Z) in
  let: (Qv, Rv) := qr (Vp Z) in
  let T := block_mx (diag_mx (item1 X) + M Z) Rv^T
                    Ru (0 : 'M[R]_k) in
  let: (Ut, St, Vt) := svd T in
  let Vt := Vt^T in
  let U := row_mx (item0 X) Qu *m lsubmx Ut in
  let V := row_mx (item2 X)^T Qv *m lsubmx Vt in
  let S := lsubmx St + const_mx np.spacing1 in
  Point U S V^T.

(** [FixedRankEmbedded.norm]. *)
Definition norm (X : point) (G : _FixedRankTangentVector) : R :=
  np.sqrt (inner X G G).

(** [FixedRankEmbedded.rand].  [randn_m] and [randn_n] are the draws of the
    two internal Stiefel manifolds (of block count 1), [rand_k] is the draw
    of [np.random.rand(self._k)]. *)
Definition rand (randn_m : 'M[R]_(m, k)) (rand_k : 'rV[R]_k)
  (randn_n : 'M[R]_(n, k)) : point :=
  let u := Stiefel.rand qr (k := 1) randn_m in
  let s := np.reversed (np.sort rand_k) in
  let vt := (Stiefel.rand qr (k := 1) randn_n)^T in
  Point u s vt.

(** [FixedRankEmbedded._tangent]: [Z] is any triple in tangent format. *)
Definition _tangent (X : point) (Z : _FixedRankTangentVector)
  : _FixedRankTangentVector :=
  let Up := Up Z - item0 X *m (item0 X)^T *m Up Z in
  let Vp := Vp Z - (item2 X)^T *m item2 X *m Vp Z in
  TangentVector Up (M Z) Vp.

(** [FixedRankEmbedded.randvec], on the three [np.random.randn] draws.
    Division by a zero norm gives 0 here and nan in numpy. *)
Definition randvec (randn_Up : 'M[R]_(m, k)) (randn_Vp : 'M[R]_(n, k))
  (randn_M : 'M[R]_k) (X : point) : _FixedRankTangentVector :=
  let Z := _tangent X (TangentVector randn_Up randn_M randn_Vp) in
  let nrm := norm X Z in
  TangentVector (nrm^-1 *: Up Z) (nrm^-1 *: M Z) (nrm^-1 *: Vp Z).

(** [FixedRankEmbedded.zerovec]. *)
Definition zerovec (X : point) : _FixedRankTangentVector :=
  TangentVector 0 0 0.

(** [_FixedRankTangentVector.to_ambient]. *)
Definition to_ambient (self : _FixedRankTangentVector) (x : point)
  : 'M[R]_(m, n) :=
  let Z1 := item0 x *m M self *m item2 x in
  let Z2 := Up self *m item2 x in
  let Z3 := item0 x *m (Vp self)^T in
  Z1 + Z2 + Z3.

(** [_FixedRankTangentVector.__add__], [__sub__], [__mul__] (and
    [__rmul__]) and [__neg__]. *)
Definition __add__ (self other : _FixedRankTangentVector) :=
  TangentVector (Up self + Up other) (M self + M other) (Vp self + Vp other).

Definition __sub__ (self other : _FixedRankTangentVector) :=
  TangentVector (Up self - Up other) (M self - M other) (Vp self - Vp other).

Definition __mul__ (self : _FixedRankTangentVector) (other : R) :=
  TangentVector (other *: Up self) (other *: M self) (other *: Vp self).

Definition __neg__ (self : _FixedRankTangentVector) :=
  TangentVector (- Up self) (- M self) (- Vp self).

End Operations.

Section Transport.

(** [self._m], [self._n], [self._k]. *)
Variables (m n k : nat).

(** [FixedRankEmbedded.tangent2ambient]: the tuple (U, S, V) with S the
    identity of size 2k. *)
Definition tangent2ambient (X : point m n k)
  (Z : _FixedRankTangentVector m n k) : ambient m n :=
  let U := row_mx (item0 X *m M Z + Up Z) (item0 X) in
  let S := (1%:M : 'M[R]_(k + k)) in
  let V := row_mx (item2 X)^T (Vp Z) in
  Factors U S V.

(** [FixedRankEmbedded.transp]. *)
Definition transp (X1 X2 : point m n k) (G : _FixedRankTangentVector m n k)
  : _FixedRankTangentVector m n k :=
  proj X2 (tangent2ambient X1 G).

End Transport.

End FixedRankEmbedded.

(** ** pymanopt.manifolds.product *)

Module Product.

(** The manifold objects of the three classes, and the attribute values of
    a [Product] instance.  A [Product] instance is its attribute dictionary,
    because [Product.__setattr__] intercepts every assignment to it. *)
Inductive manifold : Type :=
  | MStiefel (s : Stiefel.t)
  | MFixedRankEmbedded (f : FixedRankEmbedded.t)
  | MProduct (d : seq (string * value))
with value : Type :=
  | VManifolds (ms : seq manifold)
  | VStr (s : string)
  | VInt (z : Z)
  | VFloat64 (entries : seq Z)
  | VLayout (l : layout)
  | VDict (d : seq (string * value)).

(** An argument of the constructor: a manifold, or any other object, given
    by the text of its [type(...)]. *)
Inductive pyobj : Type :=
  | PyManifold (man : manifold)
  | PyOther (type_repr : string).

Record t : Type := Instance { __dict__ : seq (string * value) }.

Fixpoint lookup (d : seq (string * value)) (key : string) : option value :=
  match d with
  | [::] => None
  | (k, v) :: d' => if String.eqb k key then Some v else lookup d' key
  end.

Fixpoint update (d : seq (string * value)) (key : string) (v : value)
  : seq (string * value) :=
  match d with
  | [::] => [:: (key, v)]
  | (k, x) :: d' =>
      if String.eqb k key then (k, v) :: d' else (k, x) :: update d' key v
  end.

(** The names bound in the body of [class Product]. *)
Definition class_body : seq string :=
  [:: "_TangentVector"; "__init__"; "__setattr__"; "typicaldist"; "inner";
      "norm"; "dist"; "proj"; "egrad2rgrad"; "ehess2rhess"; "exp"; "retr";
      "log"; "rand"; "randvec"; "transp"; "pairmean"; "zerovec"]%string.

(** Modelled from the spec: the attributes that the base class [Manifold]
    (not among the sources) contributes.  The spec (6) names the read-only
    properties [dim], [typicaldist] and [point_layout]. *)
Definition base_properties : seq string :=
  [:: "dim"; "typicaldist"; "point_layout"]%string.

Definition mem_string (key : string) (names : seq string) : bool :=
  has (String.eqb key) names.

(** [hasattr(self, key)]: an instance attribute, or a name of the class. *)
Definition hasattr (self : t) (key : string) : bool :=
  isSome (lookup (__dict__ self) key)
  || mem_string key class_body || mem_string key base_properties.

(** [object.__setattr__(self, key, value)].  A property without a setter
    refuses the assignment.  [__dict__], [__class__] and [__weakref__] are
    data descriptors too: a dictionary assigned to [__dict__] replaces the
    whole attribute dictionary and any other value is refused, no value of
    the model is a class, and [__weakref__] is not writable (the messages
    go on with the type of the value or of the instance).  Any other name
    is bound in the instance. *)
Definition object__setattr__ (self : t) (key : string) (v : value)
  : result t :=
  if mem_string key base_properties then
    Raise (AttributeError "can't set attribute")
  else if String.eqb key "__dict__" then
    if v is VDict d then Ok (Instance d)
    else Raise (TypeError "__dict__ must be set to a dictionary")
  else if String.eqb key "__class__" then
    Raise (TypeError "__class__ must be set to a class")
  else if String.eqb key "__weakref__" then
    Raise (AttributeError "attribute '__weakref__' is not writable")
  else Ok (Instance (update (__dict__ self) key v)).

(** [Product.__setattr__]. *)
Definition __setattr__ (self : t) (key : string) (v : value) : result t :=
  if hasattr self key then
    if String.eqb key "manifolds" then
      Raise (AttributeError "Cannot override 'manifolds' attribute")
    else object__setattr__ self key v
  else object__setattr__ self key v.

(** [self._manifolds]. *)
Definition _manifolds (self : t) : option (seq manifold) :=
  if lookup (__dict__ self) "_manifolds" is Some (VManifolds ms) then Some ms
  else None.

(** Modelled from the spec: [str(man)], [man.dim] and [man.point_layout]
    are served by the base class; they return the name, the dimension and
    the point layout fixed at construction. *)
Definition man_base (man : manifold) : Manifold.t :=
  match man with
  | MStiefel s => Stiefel.base s
  | MFixedRankEmbedded f => FixedRankEmbedded.base f
  | MProduct d =>
      Manifold.Make
        (if lookup d "_name" is Some (VStr s) then s else EmptyString)
        (if lookup d "_dimension" is Some (VInt z) then z else 0%Z)
        (if lookup d "_point_layout" is Some (VLayout l) then l else LInt 1)
  end.

(** The [for] loop of [__init__] over the arguments. *)
Fixpoint check_manifolds (manifolds : seq pyobj) : result (seq manifold) :=
  match manifolds with
  | [::] => Ok [::]
  | PyOther ty :: _ =>
      Raise (ValueError ("Unsupport manifold of type '" ++ ty ++ "'")%string)
  | PyManifold (MProduct _) :: _ =>
      Raise (ValueError "Nested product manifolds are not supported")
  | PyManifold man :: rest =>
      ms <- check_manifolds rest ;; Ok (man :: ms)
  end.

(** [" x ".join(names)]. *)
Fixpoint join (sep : string) (names : seq string) : string :=
  match names with
  | [::] => EmptyString
  | [:: s] => s
  | s :: rest => (s ++ sep ++ join sep rest)%string
  end.

(** Modelled from the spec: [Manifold.__init__(name, dimension,
    point_layout)] on an instance of [Product]; its assignments to [self]
    are served by [Product.__setattr__]. *)
Definition Manifold__init__ (self : t) (name : string) (dimension : value)
  (point_layout : layout) : result t :=
  self <- __setattr__ self "_name" (VStr name) ;;
  self <- __setattr__ self "_dimension" dimension ;;
  __setattr__ self "_point_layout" (VLayout point_layout).

(** [Product.__init__(self, *manifolds)]. *)
Definition __init__ (manifolds : seq pyobj) : result t :=
  if size manifolds == 0%N then
    Raise (ValueError "At least one manifold required")
  else
    ms <- check_manifolds manifolds ;;
    self <- __setattr__ (Instance [::]) "_manifolds" (VManifolds ms) ;;
    let name :=
      ("Product manifold: "
       ++ join " x " [seq Manifold._name (man_base man) | man <- ms])%string in
    let dimension :=
      match np.sum [seq Manifold._dimension (man_base man) | man <- ms] with
      | np.SumInt z => VInt z
      | np.SumFloat64 entries => VFloat64 entries
      end in
    let point_layout :=
      LTuple [seq Manifold._point_layout (man_base man) | man <- ms] in
    Manifold__init__ self name dimension point_layout.

(** *** The operations, on the factors of this repository

    A factor is a [Stiefel] or a [FixedRankEmbedded] manifold (a nested
    [Product] is refused by [__init__]), given by its shape parameters.  A
    point, a tangent vector or an ambient vector of the product is the
    Python list of those of the factors, indexed as [X[k]]. *)

Inductive factor : Type :=
  | FStiefel (n p k : nat)
  | FFixedRankEmbedded (m n k : nat).

Definition point_of (man : factor) : Type :=
  match man with
  | FStiefel n p k => multi.ndarray k n p
  | FFixedRankEmbedded m n k => FixedRankEmbedded.point m n k
  end.

Definition tangent_of (man : factor) : Type :=
  match man with
  | FStiefel n p k => multi.ndarray k n p
  | FFixedRankEmbedded m n k => FixedRankEmbedded._FixedRankTangentVector m n k
  end.

Definition ambient_of (man : factor) : Type :=
  match man with
  | FStiefel n p k => multi.ndarray k n p
  | FFixedRankEmbedded m n k => FixedRankEmbedded.ambient m n
  end.

(** The random draws that one call of [man.randvec] consumes. *)
Definition draws_of (man : factor) : Type :=
  match man with
  | FStiefel n p k => multi.ndarray k n p
  | FFixedRankEmbedded m n k => ('M[R]_(m, k) * 'M[R]_(n, k) * 'M[R]_k)%type
  end.

Fixpoint list_of (T : factor -> Type) (mans : seq factor) : Type :=
  match mans with
  | [::] => unit
  | man :: mans' => (T man * list_of T mans')%type
  end.

(** [man.inner], [man.norm], [man.proj], [man.randvec], [man.zerovec] and
    [scale * v] by the class of [man]. *)
Definition man_inner (man : factor)
  : point_of man -> tangent_of man -> tangent_of man -> R :=
  match man with
  | FStiefel n p k => @Stiefel.inner n p k
  | FFixedRankEmbedded m n k => @FixedRankEmbedded.inner m n k
  end.


Definition man_proj (man : factor)
  : point_of man -> ambient_of man -> tangent_of man :=
  match man with
  | FStiefel n p k => @Stiefel.proj n p k
  | FFixedRankEmbedded m n k => @FixedRankEmbedded.proj m n k
  end.

Definition man_randvec (man : factor)
  : draws_of man -> point_of man -> tangent_of man :=
  match man with
  | FStiefel n p k => @Stiefel.randvec n p k
  | FFixedRankEmbedded m n k => fun d =>
      @FixedRankEmbedded.randvec m n k d.1.1 d.1.2 d.2
  end.

Definition man_zerovec (man : factor) : point_of man -> tangent_of man :=
  match man with
  | FStiefel n p k => @Stiefel.zerovec n p k
  | FFixedRankEmbedded m n k => @FixedRankEmbedded.zerovec m n k
  end.

Definition man_scale (man : factor) (scale : R)
  : tangent_of man -> tangent_of man :=
  match man with
  | FStiefel n p k => fun v => scale *: v
  | FFixedRankEmbedded m n k => fun v => FixedRankEmbedded.__mul__ v scale
  end.

(** A tangent vector of a factor passed on as the second argument of its
    [proj]: the same array for [Stiefel], the tuple for
    [FixedRankEmbedded]. *)
Definition man_as_ambient (man : factor) : tangent_of man -> ambient_of man :=
  match man with
  | FStiefel n p k => fun v => v
  | FFixedRankEmbedded m n k => @FixedRankEmbedded.as_tuple m n k
  end.

(** The list [[man.inner(X[k], G[k], H[k]) for k, man in ...]]. *)
Fixpoint inner_terms (mans : seq factor)
  : list_of point_of mans -> list_of tangent_of mans ->
    list_of tangent_of mans -> seq R :=
  match mans with
  | [::] => fun _ _ _ => [::]
  | man :: mans' => fun X G H =>
      man_inner X.1 G.1 H.1 :: inner_terms X.2 G.2 H.2
  end.

(** [Product.inner]. *)
Definition inner (mans : seq factor) (X : list_of point_of mans)
  (G H : list_of tangent_of mans) : R :=
  \sum_(t <- inner_terms X G H) t.

(** [Product.norm]. *)
Definition norm (mans : seq factor) (X : list_of point_of mans)
  (G : list_of tangent_of mans) : R :=
  np.sqrt (inner X G G).

(** [Product.proj]. *)
Fixpoint proj (mans : seq factor)
  : list_of point_of mans -> list_of ambient_of mans ->
    list_of tangent_of mans :=
  match mans with
  | [::] => fun _ _ => tt
  | man :: mans' => fun X U => (man_proj X.1 U.1, proj X.2 U.2)
  end.

(** The list [[scale * man.randvec(X[k]) for k, man in ...]]. *)
Fixpoint scaled_randvecs (scale : R) (mans : seq factor)
  : list_of draws_of mans -> list_of point_of mans ->
    list_of tangent_of mans :=
  match mans with
  | [::] => fun _ _ => tt
  | man :: mans' => fun d X =>
      (man_scale scale (man_randvec d.1 X.1), scaled_randvecs scale d.2 X.2)
  end.

(** [Product.randvec]. *)
Definition randvec (mans : seq factor) (draws : list_of draws_of mans)
  (X : list_of point_of mans) : list_of tangent_of mans :=
  let scale := np.pow (size mans)%:R (- 1 / 2%:R) in
  scaled_randvecs scale draws X.

(** [Product.zerovec]. *)
Fixpoint zerovec (mans : seq factor)
  : list_of point_of mans -> list_of tangent_of mans :=
  match mans with
  | [::] => fun _ => tt
  | man :: mans' => fun X => (man_zerovec X.1, zerovec X.2)
  end.

(** A [_TangentVector] passed on as the second argument of [proj]: its
    entry [U[k]] goes to the factor [k]. *)
Fixpoint as_ambient (mans : seq factor)
  : list_of tangent_of mans -> list_of ambient_of mans :=
  match mans with
  | [::] => fun _ => tt
  | man :: mans' => fun U => (man_as_ambient U.1, as_ambient U.2)
  end.

End Product.

(** * Vocabulary of the properties *)

Module Blocks.

Import multi.

(** The block [i] of an array: the array itself when the block count is 1,
    [X[i]] otherwise. *)
Definition block (k m n : nat) : ndarray k m n -> 'I_k -> 'M[R]_(m, n) :=
  match k with
  | 1%N => fun X _ => X
  | _ => fun X i => X i
  end.

(** Orthonormal columns, in every block: a point of the Stiefel manifold. *)
Definition orthonormal (k n p : nat) (X : ndarray k n p) : Prop :=
  forall i : 'I_k, (block X i)^T *m block X i = 1%:M.

(** A tangent vector at [X]: [Xt U] is skew-symmetric, in every block. *)
Definition tangent (k n p : nat) (X U : ndarray k n p) : Prop :=
  forall i : 'I_k,
    ((block X i)^T *m block U i)^T = - ((block X i)^T *m block U i).

(** The Frobenius inner product: the trace of [Gt H], summed over the
    blocks. *)
Definition frobenius (k n p : nat) (G H : ndarray k n p) : R :=
  \sum_(i < k) \tr ((block G i)^T *m block H i).

End Blocks.

(** What the properties need of [np.linalg.qr] on (n, p) arrays: the first
    factor has orthonormal columns. *)
Definition qr_orthonormal
  (qr : forall n p : nat, 'M[R]_(n, p) -> 'M[R]_(n, p) * 'M[R]_p)
  (n p : nat) : Prop :=
  forall A : 'M[R]_(n, p), ((qr n p A).1)^T *m (qr n p A).1 = 1%:M.

(** What the properties need of [np.linalg.svd] on (d, d) arrays: the
    singular values are not negative. *)
Definition svd_nonnegative
  (svd : forall d : nat, 'M[R]_d -> 'M[R]_d * 'rV[R]_d * 'M[R]_d)
  (d : nat) : Prop :=
  forall (T : 'M[R]_d) j, 0 <= (svd d T).1.2 0 j.

(** What the properties need of [scipy.linalg.expm] at a matrix of square
    zero: the series stops after the linear term. *)
Definition expm_nilpotent (expm : forall d : nat, 'M[R]_d -> 'M[R]_d)
  : Prop :=
  forall (d : nat) (B : 'M[R]_d), B *m B = 0 -> expm d B = 1%:M + B.

(** What the properties need of [scipy.linalg.expm] at one argument [B]:
    when [B] is skew-adjoint for a bilinear form [G] ([Bt G + G B = 0]),
    [expm B] preserves [G]. *)
Definition expm_preserves_forms (expm : forall d : nat, 'M[R]_d -> 'M[R]_d)
  (d : nat) (B : 'M[R]_d) : Prop :=
  forall G : 'M[R]_d,
    B^T *m G + G *m B = 0 -> (expm d B)^T *m G *m expm d B = G.

Module FixedRankVocabulary.

Import FixedRankEmbedded.

Section Shapes.

Variables (m n k : nat).

(** The factors [u] and [vt] of a point have orthonormal columns and rows
    (class docstring: a truncated singular value decomposition). *)
Definition orthonormal_factors (X : point m n k) : Prop :=
  (item0 X)^T *m item0 X = 1%:M /\ item2 X *m (item2 X)^T = 1%:M.

(** The constraints on a tangent vector [(Up, M, Vp)] at [X] (class
    docstring): [Up' * U = 0] and [Vp' * V = 0], with [U = X[0]] and
    [V = X[2].T]. *)
Definition tangent_at (X : point m n k) (Z : _FixedRankTangentVector m n k)
  : Prop :=
  (Up Z)^T *m item0 X = 0 /\ (Vp Z)^T *m (item2 X)^T = 0.

(** The (m, n) matrix that an ambient vector stands for (class docstring):
    [Z] itself, or [Uz * Sz * Vz']. *)
Definition ambient_matrix (Z : ambient m n) : 'M[R]_(m, n) :=
  match Z with
  | Dense Z => Z
  | Factors _ Uz Sz Vz => Uz *m Sz *m Vz^T
  end.

(** The middle factor of a factored ambient vector is symmetric. *)
Definition symmetric_core (Z : ambient m n) : Prop :=
  match Z with
  | Dense _ => True
  | Factors _ _ Sz _ => Sz^T = Sz
  end.

End Shapes.

End FixedRankVocabulary.

Module ProductVocabulary.

Import Blocks FixedRankVocabulary.

(** An argument that [Product.__init__] accepts: a manifold that is not
    itself a [Product]. *)
Definition acceptable (o : Product.pyobj) : bool :=
  match o with
  | Product.PyManifold (Product.MStiefel _) => true
  | Product.PyManifold (Product.MFixedRankEmbedded _) => true
  | Product.PyManifold (Product.MProduct _) => false
  | Product.PyOther _ => false
  end.

Definition is_stiefel (man : Product.factor) : bool :=
  if man is Product.FStiefel _ _ _ then true else false.

(** A point of the product: every entry is a point of its factor. *)
Fixpoint valid_point (mans : seq Product.factor)
  : Product.list_of Product.point_of mans -> Prop :=
  match mans with
  | [::] => fun _ => True
  | Product.FStiefel n p k :: mans' => fun X =>
      orthonormal (k := k) X.1 /\ valid_point X.2
  | Product.FFixedRankEmbedded m n k :: mans' => fun X =>
      orthonormal_factors X.1 /\ valid_point X.2
  end.

(** The draws of [randvec] are not degenerate: in every factor, the vector
    that [man.randvec] normalises has a norm other than 0. *)
Fixpoint nondegenerate (mans : seq Product.factor)
  : Product.list_of Product.draws_of mans ->
    Product.list_of Product.point_of mans -> Prop :=
  match mans with
  | [::] => fun _ _ => True
  | Product.FStiefel n p k :: mans' => fun d X =>
      Stiefel.norm (k := k) X.1 (Stiefel.proj X.1 d.1) != 0
      /\ nondegenerate d.2 X.2
  | Product.FFixedRankEmbedded m n k :: mans' => fun d X =>
      FixedRankEmbedded.norm X.1
        (FixedRankEmbedded._tangent X.1
           (FixedRankEmbedded.TangentVector d.1.1.1 d.1.2 d.1.1.2)) != 0
      /\ nondegenerate d.2 X.2
  end.


End ProductVocabulary.

(** Concrete data for the examples. *)
Module Examples.

(** The point of St(2, 1) with the column (1, 0), and the direction
    (0, 1). *)
Definition e1 : 'M[R]_(1 + 1, 1) := col_mx 1%:M 0.
Definition e2 : 'M[R]_(1 + 1, 1) := col_mx 0 1%:M.

(** A function of the type of [np.linalg.qr] whose first result has
    orthonormal columns on every input with [p <= n]. *)
Definition qr_pid (n p : nat) (A : 'M[R]_(n, p)) : 'M[R]_(n, p) * 'M[R]_p :=
  (pid_mx p, 1%:M).

(** The exponential series cut after the linear term: the exponential of a
    matrix of square zero. *)
Definition expm_linear (d : nat) (B : 'M[R]_d) : 'M[R]_d := 1%:M + B.

(** A function of the type of [np.linalg.svd] with singular values 0. *)
Definition svd_zero (d : nat) (T : 'M[R]_d) : 'M[R]_d * 'rV[R]_d * 'M[R]_d :=
  (1%:M, 0, 1%:M).

(** The 1 x 1 matrix [1] as a point of the rank-1 manifold:
    [([[1]], [1], [[1]])]. *)
Definition x11 : FixedRankEmbedded.point 1 1 1 :=
  FixedRankEmbedded.Point 1%:M (const_mx 1) 1%:M.

(** The tangent triple [(0, [[1]], 0)] at that point. *)
Definition g11 : FixedRankEmbedded._FixedRankTangentVector 1 1 1 :=
  FixedRankEmbedded.TangentVector 0 1%:M 0.

End Examples.

(** * Properties *)

(** ** Construction *)

(** *** The float arithmetic of the dimension *)

(** An integer or half-integer below [2 ^ 53] is a float. *)
Lemma round_exact (m e : Z) :
  (Z.abs m < 2 ^ 53)%Z -> (e <= 0)%Z -> float64.round m e = float64.Finite m e.
Proof.
move=> hm he; rewrite /float64.round.
have hL : (float64.bit_length m <= 53)%Z.
  rewrite /float64.bit_length; case: (Z.eqb_spec m 0) => [_|hm0]; first by [].
  have ha : (0 < Z.abs m)%Z by Lia.lia.
  have := proj1 (Z.log2_lt_pow2 (Z.abs m) 53 ha) hm; Lia.lia.
have -> : Z.max 0 (float64.bit_length m - 53) = 0%Z by Lia.lia.
rewrite Z.shiftr_0_r /= Z.add_0_r.
have -> : (Z.sgn m * Z.abs m = m)%Z by rewrite Z.mul_comm Z.abs_sgn.
have hL' : float64.bit_length (Z.abs m) = float64.bit_length m.
  rewrite /float64.bit_length Z.abs_involutive.
  by case: (Z.eqb_spec m 0) => h; case: (Z.eqb_spec (Z.abs m) 0) => h' //;
     Lia.lia.
case: (Z.eqb_spec (Z.abs m) 0) => //= _.
by rewrite hL'; case: (Z.ltb_spec 1024 (float64.bit_length m + e)) => //;
   Lia.lia.
Qed.

Lemma pow2_split (c a b : Z) :
  (0 <= a)%Z -> (0 <= b)%Z -> (c = a + b)%Z -> (2 ^ c = 2 ^ a * 2 ^ b)%Z.
Proof. by move=> ha hb ->; apply: Z.pow_add_r. Qed.

(** Below [2 ^ (1023 - e)] the rounding of [m * 2 ^ e] is finite, and it
    does not pass the power of 2 that bounds [m]. *)
Lemma round_finite (m e t J : Z) :
  (0 <= t)%Z -> (Z.abs m * 2 ^ t < 2 ^ J)%Z -> (J - t + e <= 1023)%Z ->
  exists m' s,
    [/\ (0 <= s)%Z, float64.round m e = float64.Finite m' (e + s)
      & (Z.abs m' * 2 ^ (s + t) <= 2 ^ J)%Z].
Proof.
move=> ht hm hJ.
have h2t : (0 < 2 ^ t)%Z by apply: Z.pow_pos_nonneg.
have h2J : (0 < 2 ^ J)%Z by Lia.nia.
have hJ0 : (0 <= J)%Z.
  by case: (Z.ltb_spec J 0) => // /(Z.pow_neg_r 2); Lia.lia.
rewrite /float64.round /float64.bit_length.
case: (Z.eqb_spec m 0) => [->|hm0].
  exists 0%Z, 0%Z; split=> //; last by rewrite Z.mul_0_l; Lia.lia.
set a := Z.abs m in hm *.
have ha : (0 < a)%Z by rewrite /a; Lia.lia.
have [hl hu] := Z.log2_spec _ ha.
have hL := Z.log2_nonneg a.
set L := Z.log2 a in hl hu hL *.
set s := Z.max 0 _; set q := Z.shiftr a s.
have hs : (0 <= s)%Z by rewrite /s; Lia.lia.
have hsL : (s <= L)%Z by rewrite /s; Lia.lia.
have h2s : (0 < 2 ^ s)%Z by apply: Z.pow_pos_nonneg.
have htJ : (t < J)%Z.
  case: (Z.ltb_spec t J) => // hJt.
  by have := @Z.pow_le_mono_r 2 J t; Lia.nia.
have haj : (a < 2 ^ (J - t))%Z.
  have hh : (2 ^ J = 2 ^ (J - t) * 2 ^ t)%Z by apply: pow2_split; Lia.lia.
  have : (0 < 2 ^ (J - t))%Z by apply: Z.pow_pos_nonneg => //; Lia.lia.
  by rewrite hh in hm; Lia.nia.
have hLj : (L < J - t)%Z.
  case: (Z.ltb_spec L (J - t)) => // hJt.
  by have := @Z.pow_le_mono_r 2 (J - t) L; Lia.lia.
have hq : (q = a / 2 ^ s)%Z by rewrite /q Z.shiftr_div_pow2.
have hq1 : (0 < q)%Z.
  rewrite hq; apply: Z.div_str_pos; split=> //.
  by apply: Z.le_trans hl; apply: Z.pow_le_mono_r.
have hqa : (q * 2 ^ s <= a)%Z.
  by rewrite hq Z.mul_comm; apply: Z.mul_div_le.
have hsplit : (2 ^ (J - t) = 2 ^ (J - t - s) * 2 ^ s)%Z.
  by apply: pow2_split; Lia.lia.
have h2r : (0 < 2 ^ (J - t - s))%Z by apply: Z.pow_pos_nonneg => //; Lia.lia.
have hq2 : (q + 1 <= 2 ^ (J - t - s))%Z.
  by rewrite hsplit in haj; Lia.nia.
set q' := (if _ && _ then _ else q).
have hq' : (0 < q' <= 2 ^ (J - t - s))%Z.
  by rewrite /q'; case: ifP => _; Lia.lia.
have hbl : (Z.log2 (Z.abs q') <= J - t - s)%Z.
  have -> : Z.abs q' = q' by apply: Z.abs_eq; Lia.lia.
  have := Z.log2_le_mono _ _ (proj2 hq').
  by rewrite Z.log2_pow2 //; Lia.lia.
exists (Z.sgn m * q')%Z, s; split=> //.
- case: (Z.eqb_spec q' 0) => [|_] /=; first by Lia.lia.
  by case: (Z.ltb_spec 1024 _) => //; Lia.lia.
- have -> : Z.abs (Z.sgn m * q') = q' by Lia.lia.
  have -> : (2 ^ J = 2 ^ (J - t - s) * 2 ^ (s + t))%Z.
    by apply: pow2_split; Lia.lia.
  have : (0 < 2 ^ (s + t))%Z by apply: Z.pow_pos_nonneg => //; Lia.lia.
  by Lia.nia.
Qed.

(** [n * p - p * (p + 1) / 2] on floats. *)
Lemma sub_finite (m2 s2 m1 s1 b : Z) :
  (0 <= s2)%Z -> (0 <= s1)%Z -> (0 <= b)%Z -> (b <= 1019)%Z ->
  (Z.abs m2 * 2 ^ s2 <= 2 ^ b)%Z -> (Z.abs m1 * 2 ^ s1 <= 2 * 2 ^ b)%Z ->
  exists md ed t,
    [/\ (0 <= t)%Z,
        float64.sub (float64.Finite m2 (0 + s2)) (float64.Finite m1 (-1 + s1))
        = float64.Finite md ed
      & (Z.abs md * 2 ^ t <= 2 ^ (b + 3))%Z /\ (ed + 1 = t)%Z].
Proof.
move=> hs2 hs1 hb hb' b2 b1; rewrite /float64.sub.
set e := Z.min _ _; set X2 := (2 ^ (0 + s2 - e))%Z; set X1 := (2 ^ (_ - e))%Z.
have he : (-1 <= e)%Z by rewrite /e; Lia.lia.
have hT : (0 < 2 ^ (e + 1))%Z by apply: Z.pow_pos_nonneg => //; Lia.lia.
have hX2 : (0 < X2)%Z by apply: Z.pow_pos_nonneg => //; rewrite /e; Lia.lia.
have hX1 : (0 < X1)%Z by apply: Z.pow_pos_nonneg => //; rewrite /e; Lia.lia.
have p2 : (2 ^ (s2 + 1) = 2 * 2 ^ s2)%Z.
  by rewrite Z.pow_add_r // Z.pow_1_r Z.mul_comm.
have e2 : (2 * 2 ^ s2 = X2 * 2 ^ (e + 1))%Z.
  by rewrite -p2; apply: pow2_split; rewrite /e; Lia.lia.
have e1 : (2 ^ s1 = X1 * 2 ^ (e + 1))%Z.
  by apply: pow2_split; rewrite /e; Lia.lia.
have hB : (0 < 2 ^ b)%Z by apply: Z.pow_pos_nonneg.
have e3 : (2 ^ (b + 3) = 8 * 2 ^ b)%Z.
  by rewrite Z.pow_add_r // Z.mul_comm.
have hM : (Z.abs (m2 * X2 - m1 * X1) * 2 ^ (e + 1) < 2 ^ (b + 3))%Z.
  have : (Z.abs (m2 * X2 - m1 * X1) <= Z.abs m2 * X2 + Z.abs m1 * X1)%Z.
    have := Z.abs_mul m2 X2; have := Z.abs_mul m1 X1.
    by rewrite (Z.abs_eq X1) ?(Z.abs_eq X2); Lia.lia.
  move=> htri.
  have : ((Z.abs m2 * X2 + Z.abs m1 * X1) * 2 ^ (e + 1)
          = 2 * (Z.abs m2 * 2 ^ s2) + Z.abs m1 * 2 ^ s1)%Z.
    have -> : (2 * (Z.abs m2 * 2 ^ s2) = Z.abs m2 * (2 * 2 ^ s2))%Z.
      by Lia.lia.
    by rewrite e2 e1; Lia.lia.
  by rewrite e3; Lia.nia.
have [] := @round_finite (m2 * X2 - m1 * X1) e (e + 1) (b + 3) _ hM.
- by Lia.lia.
- by Lia.lia.
move=> md [sd [hsd -> hmd]].
exists md, (e + sd)%Z, (sd + (e + 1))%Z; split=> //; first by Lia.lia.
by split=> //; Lia.lia.
Qed.

(** [k * difference] on floats. *)
Lemma mul_finite (mk sk md ed t a c : Z) :
  (0 <= sk)%Z -> (0 <= t)%Z -> (ed + 1 = t)%Z -> (0 <= a)%Z -> (0 <= c)%Z ->
  (a + c <= 1023)%Z ->
  (Z.abs mk * 2 ^ sk <= 2 ^ a)%Z -> (Z.abs md * 2 ^ t <= 2 ^ c)%Z ->
  exists mr er,
    float64.mul (float64.Finite mk (0 + sk)) (float64.Finite md ed)
    = float64.Finite mr er.
Proof.
move=> hsk ht he ha hc hac bk bd; rewrite /float64.mul.
have h1 : (0 < 2 ^ sk)%Z by apply: Z.pow_pos_nonneg.
have h2 : (0 < 2 ^ t)%Z by apply: Z.pow_pos_nonneg.
have h3 : (0 < 2 ^ a)%Z by apply: Z.pow_pos_nonneg.
have h4 : (0 < 2 ^ c)%Z by apply: Z.pow_pos_nonneg.
have e1 : (2 ^ (sk + t) = 2 ^ sk * 2 ^ t)%Z by apply: pow2_split.
have e2 : (2 ^ (a + c + 1) = 2 ^ a * 2 ^ c * 2)%Z.
  by rewrite !Z.pow_add_r ?Z.pow_1_r //; Lia.lia.
have hM : (Z.abs (mk * md) * 2 ^ (sk + t) < 2 ^ (a + c + 1))%Z.
  rewrite Z.abs_mul e1 e2.
  have -> : (Z.abs mk * Z.abs md * (2 ^ sk * 2 ^ t)
             = (Z.abs mk * 2 ^ sk) * (Z.abs md * 2 ^ t))%Z by Lia.lia.
  have := Z.abs_nonneg mk; have := Z.abs_nonneg md.
  by Lia.nia.
have [] := @round_finite (mk * md) (0 + sk + ed) (sk + t) (a + c + 1) _ hM.
- by Lia.lia.
- by Lia.lia.
by move=> mr [sr [_ -> _]]; eexists; eexists.
Qed.

Lemma bind_Ok (A B : Type) (a : A) (f : A -> result B) : bind (Ok a) f = f a.
Proof. by []. Qed.

(** *** [Stiefel.__init__] *)

Lemma Stiefel_init_in_range (n p k : Z) :
  ~ (n < p \/ p < 1 \/ k < 1)%Z -> (k * (n * p) < 2 ^ 1000)%Z ->
  is_Ok (Stiefel.__init__ n p k).
Proof.
move=> hv hN.
have [hnp [hp hk]] : (p <= n /\ 1 <= p /\ 1 <= k)%Z by Lia.lia.
have hnp0 : (0 < n * p)%Z by Lia.nia.
have hk0 : (0 < k)%Z by Lia.lia.
have [hk1 hk2] := Z.log2_spec _ hk0.
have [hb1 hb2] := Z.log2_spec _ hnp0.
have hlk := Z.log2_nonneg k; have hlb := Z.log2_nonneg (n * p).
rewrite -!Z.add_1_r in hk2 hb2.
set lk := Z.log2 k in hk1 hk2 hlk; set lb := Z.log2 (n * p) in hb1 hb2 hlb.
have hab : (lk + lb < 1000)%Z.
  case: (Z.ltb_spec (lk + lb) 1000) => // h.
  have := @Z.pow_le_mono_r 2 1000 (lk + lb).
  rewrite (@pow2_split (lk + lb) lk lb) //.
  have : (0 < 2 ^ lk)%Z by apply: Z.pow_pos_nonneg.
  have : (0 < 2 ^ lb)%Z by apply: Z.pow_pos_nonneg.
  by move: hN; set B := (2 ^ 1000)%Z; Lia.nia.
have hB : (0 < 2 ^ (lb + 1))%Z by apply: Z.pow_pos_nonneg => //; Lia.lia.
have eB : (2 ^ (lb + 1 + 1) = 2 * 2 ^ (lb + 1))%Z.
  by rewrite (Z.pow_add_r 2 (lb + 1) 1) ?Z.pow_1_r; Lia.lia.
have [] := @round_finite (p * (p + 1)) (-1) 0 (lb + 1 + 1).
- by [].
- by rewrite eB Z.pow_0_r; Lia.nia.
- by Lia.lia.
move=> m1 [s1 [hs1 r1 b1]].
have [] := @round_finite (n * p) 0 0 (lb + 1).
- by [].
- by rewrite Z.pow_0_r; Lia.lia.
- by Lia.lia.
move=> m2 [s2 [hs2 r2 b2]].
have [] := @round_finite k 0 0 (lk + 1).
- by [].
- by rewrite Z.pow_0_r; Lia.lia.
- by Lia.lia.
move=> mk [sk [hsk rk bk]].
rewrite Z.add_0_r eB in b1; rewrite Z.add_0_r in b2; rewrite Z.add_0_r in bk.
have [] := @sub_finite m2 s2 m1 s1 (lb + 1) hs2 hs1 _ _ b2 b1.
- by Lia.lia.
- by Lia.lia.
move=> md [ed [t [ht rd [bd hed]]]].
have [] :=
  @mul_finite mk sk md ed t (lk + 1) (lb + 1 + 3) hsk ht hed _ _ _ bk bd.
- by Lia.lia.
- by Lia.lia.
- by Lia.lia.
move=> mr [er rm].
rewrite /Stiefel.__init__.
case: (Z.ltb_spec n p) => [|_] /=; first by Lia.lia.
case: (Z.ltb_spec p 1) => [|_] /=; first by Lia.lia.
case: (Z.ltb_spec k 1) => [|_] /=; first by Lia.lia.
rewrite /float64.int_truediv_2 /float64.of_int r1 r2 rk !bind_Ok rd rm.
rewrite /float64.to_int bind_Ok.
case: (Z.eqb_spec k 1) => // hkne.
by case: (Z.geb_spec k 2) => //; Lia.lia.
Qed.

Lemma even_product (p : Z) : (p * (p + 1) = 2 * (p * (p + 1) / 2))%Z.
Proof.
have : Z.even (p * (p + 1)) = true.
  by rewrite Z.even_mul Z.even_add /=; case: (Z.even p).
move/Z.even_spec => [h ->].
by rewrite (Z.mul_comm 2 h) Z.div_mul // Z.mul_comm.
Qed.

Lemma Stiefel_init_invalid (n p k : Z) :
  (n < p \/ p < 1 \/ k < 1)%Z -> is_ValueError (Stiefel.__init__ n p k).
Proof.
rewrite /Stiefel.__init__ => h.
case: (Z.ltb_spec n p) => //= hnp.
case: (Z.ltb_spec p 1) => //= hp.
case: (Z.ltb_spec k 1) => //= hk.
Lia.lia.
Qed.

Lemma Stiefel_init_small (n p k : Z) :
  ~ (n < p \/ p < 1 \/ k < 1)%Z -> (k * (n * p) < 2 ^ 52)%Z ->
  exists name,
    Stiefel.__init__ n p k
    = Ok (Stiefel.Make n p k
            (Manifold.__init__ name (k * (n * p - p * (p + 1) / 2))%Z
               (LInt 1))).
Proof.
move=> hv hs.
have [hnp [hp hk]] : (p <= n /\ 1 <= p /\ 1 <= k)%Z by Lia.lia.
have hh := even_product p.
set h := (p * (p + 1) / 2)%Z in hh *.
have h0 : (0 <= h)%Z by Lia.nia.
have hnph : (h <= n * p)%Z by Lia.nia.
have b1 : (n * p <= k * (n * p))%Z by Lia.nia.
have b0 : (0 < n * p)%Z by Lia.nia.
have e52 : (2 ^ 52 = 4503599627370496)%Z by [].
have e53 : (2 ^ 53 = 9007199254740992)%Z by [].
rewrite /Stiefel.__init__.
case: (Z.ltb_spec n p) => [|_] /=; first by Lia.lia.
case: (Z.ltb_spec p 1) => [|_] /=; first by Lia.lia.
case: (Z.ltb_spec k 1) => [|_] /=; first by Lia.lia.
have r1 : float64.round (p * (p + 1)) (-1)
          = float64.Finite (p * (p + 1)) (-1).
  by apply: round_exact; rewrite ?e53; Lia.nia.
have r2 : float64.round (n * p) 0 = float64.Finite (n * p) 0.
  by apply: round_exact; rewrite ?e53; Lia.nia.
have r3 : float64.round k 0 = float64.Finite k 0.
  by apply: round_exact; rewrite ?e53; Lia.nia.
have r4 : float64.round (2 * (n * p - h)) (-1)
          = float64.Finite (2 * (n * p - h)) (-1).
  by apply: round_exact; rewrite ?e53; Lia.nia.
have r5 : float64.round (k * (2 * (n * p - h))) (-1)
          = float64.Finite (k * (2 * (n * p - h))) (-1).
  by apply: round_exact; rewrite ?e53; Lia.nia.
rewrite /float64.int_truediv_2 r1 /= /float64.of_int r2 /= r3 /=.
have -> : (n * p * Z.pow_pos 2 1 - p * (p + 1) * 1 = 2 * (n * p - h))%Z.
  by change (Z.pow_pos 2 1) with 2%Z; Lia.lia.
change (Z.min 0 (-1)) with (-1)%Z.
rewrite r4 r5.
have -> : float64.to_int (float64.Finite (k * (2 * (n * p - h))) (-1))
          = Ok (k * (n * p - h))%Z.
  rewrite /float64.to_int /=; congr Ok.
  have -> : (k * (2 * (n * p - h)) = k * (n * p - h) * 2)%Z by Lia.lia.
  by change (Z.pow_pos 2 1) with 2%Z; rewrite Z.quot_mul.
rewrite /=.
case: (Z.eqb_spec k 1) => [_|hk1]; first by eexists.
case: (Z.geb_spec k 2) => [_|]; first by eexists.
by Lia.lia.
Qed.

(** The float arithmetic of a valid shape never gives nan. *)
Lemma round_not_NaN (m e : Z) : float64.round m e <> float64.NaN.
Proof. by rewrite /float64.round; case: ifP. Qed.

Lemma round_nonzero (m e m' e' : Z) :
  m <> 0%Z -> float64.round m e = float64.Finite m' e' -> m' <> 0%Z.
Proof.
move=> hm; rewrite /float64.round /float64.bit_length.
case: (Z.eqb_spec m 0) => // _.
set s := Z.max 0 _; set q := Z.shiftr _ s.
have hs : (0 <= s)%Z by rewrite /s; Lia.lia.
have ha : (0 < Z.abs m)%Z by Lia.lia.
have [hl _] := Z.log2_spec _ ha.
have hsl : (s <= Z.log2 (Z.abs m))%Z.
  by rewrite /s; have := Z.log2_nonneg (Z.abs m); Lia.lia.
have hp : (0 < 2 ^ s <= Z.abs m)%Z.
  split; first by apply: Z.pow_pos_nonneg.
  by apply: Z.le_trans hl; apply: Z.pow_le_mono_r.
have hq : (0 < q)%Z.
  by rewrite /q Z.shiftr_div_pow2 //; apply: Z.div_str_pos.
set q' := (if _ && _ then _ else q).
have hq' : (0 < q')%Z by rewrite /q'; case: ifP => _; Lia.lia.
by case: ifP => // _ [<- _]; Lia.nia.
Qed.

Lemma Stiefel_init_valid (n p k : Z) :
  ~ (n < p \/ p < 1 \/ k < 1)%Z ->
  is_Ok (Stiefel.__init__ n p k) \/ is_OverflowError (Stiefel.__init__ n p k).
Proof.
move=> hv.
have [hnp [hp hk]] : (p <= n /\ 1 <= p /\ 1 <= k)%Z by Lia.lia.
rewrite /Stiefel.__init__.
case: (Z.ltb_spec n p) => [|_] /=; first by Lia.lia.
case: (Z.ltb_spec p 1) => [|_] /=; first by Lia.lia.
case: (Z.ltb_spec k 1) => [|_] /=; first by Lia.lia.
have hname : (if (k =? 1)%Z then true else (k >=? 2)%Z) = true.
  case: (Z.eqb_spec k 1) => // hk1.
  by case: (Z.geb_spec k 2) => //; Lia.lia.
rewrite /float64.int_truediv_2 /float64.of_int.
case: (float64.round (p * (p + 1)) (-1)) => [m1 e1|s1|] /=; try by right.
case: (float64.round (n * p) 0) => [m2 e2|s2|] /=; try by right.
case hk' : (float64.round k 0) => [mk ek|sk|] /=; try by right.
have hmk : mk <> 0%Z by apply: round_nonzero hk'; Lia.lia.
case hd : (float64.round _ _) => [md ed|sd|] /=; last first.
- by case: (round_not_NaN hd).
- by case: (Z.eqb_spec mk 0) => //= _; right.
case: (float64.round _ _) (@round_not_NaN (mk * md) (ek + ed))
  => [mr er|sr|] // _ /=; last by right.
by left; move: hname; case: (k =? 1)%Z => //; case: (k >=? 2)%Z.
Qed.

(** *** [FixedRankEmbedded.__init__] *)

Lemma FixedRank_init_invalid (m n k : Z) :
  (k > Z.min m n \/ k < 1 \/ m <= 0 \/ n <= 0)%Z ->
  is_ValueError (FixedRankEmbedded.__init__ m n k)
  \/ is_OverflowError (FixedRankEmbedded.__init__ m n k).
Proof.
move=> hi; rewrite /FixedRankEmbedded.__init__.
have [hm|hm] : ((m < k \/ k < 1 \/ 1 < 1) \/ ~ (m < k \/ k < 1 \/ 1 < 1))%Z.
- case: (Z.ltb_spec m k) => ?; first by left; left.
  case: (Z.ltb_spec k 1) => ?; first by left; right; left.
  by right; Lia.lia.
- have := Stiefel_init_invalid hm.
  by case: (Stiefel.__init__ m k 1) => [sm|[]] //; left.
have hn : (n < k \/ k < 1 \/ 1 < 1)%Z by Lia.lia.
have := Stiefel_init_valid hm; have := Stiefel_init_invalid hn.
case: (Stiefel.__init__ m k 1) => [sm|[] msg] /= hn' [] // _; last by right.
by move: hn'; case: (Stiefel.__init__ n k 1) => [sn|[]] //; left.
Qed.

Lemma FixedRank_init_invalid_in_range (m n k : Z) :
  (k > Z.min m n \/ k < 1 \/ m <= 0 \/ n <= 0)%Z -> (m * k < 2 ^ 1000)%Z ->
  is_ValueError (FixedRankEmbedded.__init__ m n k).
Proof.
move=> hi hmk; rewrite /FixedRankEmbedded.__init__.
have [hm|hm] : ((m < k \/ k < 1 \/ 1 < 1) \/ ~ (m < k \/ k < 1 \/ 1 < 1))%Z.
- case: (Z.ltb_spec m k) => ?; first by left; left.
  case: (Z.ltb_spec k 1) => ?; first by left; right; left.
  by right; Lia.lia.
- have := Stiefel_init_invalid hm.
  by case: (Stiefel.__init__ m k 1) => [sm|[]].
have hn : (n < k \/ k < 1 \/ 1 < 1)%Z by Lia.lia.
have := Stiefel_init_invalid hn.
have : is_Ok (Stiefel.__init__ m k 1).
  by apply: Stiefel_init_in_range => //; Lia.lia.
case: (Stiefel.__init__ m k 1) => [sm|] //= _.
by case: (Stiefel.__init__ n k 1) => [sn|[]].
Qed.

Lemma FixedRank_init_in_range (m n k : Z) :
  ~ (k > Z.min m n \/ k < 1 \/ m <= 0 \/ n <= 0)%Z ->
  (m * k < 2 ^ 1000)%Z -> (n * k < 2 ^ 1000)%Z ->
  exists stiefel_m stiefel_n name,
    [/\ Stiefel.__init__ m k 1 = Ok stiefel_m,
        Stiefel.__init__ n k 1 = Ok stiefel_n
      & FixedRankEmbedded.__init__ m n k
        = Ok (FixedRankEmbedded.Make m n k stiefel_m stiefel_n
                (Manifold.__init__ name ((m + n - k) * k)%Z (LInt 3)))].
Proof.
move=> hv hmk hnk; rewrite /FixedRankEmbedded.__init__.
have hm : ~ (m < k \/ k < 1 \/ 1 < 1)%Z by Lia.lia.
have hn : ~ (n < k \/ k < 1 \/ 1 < 1)%Z by Lia.lia.
have : is_Ok (Stiefel.__init__ m k 1).
  by apply: Stiefel_init_in_range => //; Lia.lia.
have : is_Ok (Stiefel.__init__ n k 1).
  by apply: Stiefel_init_in_range => //; Lia.lia.
case: (Stiefel.__init__ m k 1) => [sm|] //.
case: (Stiefel.__init__ n k 1) => [sn|] // _ _.
by do 3!eexists; split.
Qed.

(** C3: [Stiefel(n, p, k)] raises a [ValueError] when [n < p], [p < 1] or
    [k < 1], and [FixedRankEmbedded(m, n, k)] raises when [k > min(m, n)],
    [k < 1] or one of [m], [n] is not positive: a [ValueError], unless the
    float arithmetic of its first [Stiefel] construction overflows before
    the second one is refused.  On every other input whose product
    [k * n * p], respectively [m * k] and [n * k], is below [2 ^ 1000], the
    construction returns the manifold, and the dimension of a [Stiefel]
    manifold is the exact [k * (n * p - p * (p + 1) / 2)] below [2 ^ 52]. *)
Theorem init_raises_on_invalid_shape_and_returns_in_float_range
  (m n p k : Z) :
  let stiefel_invalid := (n < p \/ p < 1 \/ k < 1)%Z in
  let fixed_rank_invalid := (k > Z.min m n \/ k < 1 \/ m <= 0 \/ n <= 0)%Z in
  [/\ stiefel_invalid -> is_ValueError (Stiefel.__init__ n p k),
      ~ stiefel_invalid -> (k * (n * p) < 2 ^ 1000)%Z ->
        is_Ok (Stiefel.__init__ n p k)
    & ~ stiefel_invalid -> (k * (n * p) < 2 ^ 52)%Z ->
        exists name,
          Stiefel.__init__ n p k
          = Ok (Stiefel.Make n p k
                  (Manifold.__init__ name
                     (k * (n * p - p * (p + 1) / 2))%Z (LInt 1)))]
  /\ [/\ fixed_rank_invalid ->
            is_ValueError (FixedRankEmbedded.__init__ m n k)
            \/ is_OverflowError (FixedRankEmbedded.__init__ m n k),
          fixed_rank_invalid -> (m * k < 2 ^ 1000)%Z ->
            is_ValueError (FixedRankEmbedded.__init__ m n k)
        & ~ fixed_rank_invalid ->
          (m * k < 2 ^ 1000)%Z -> (n * k < 2 ^ 1000)%Z ->
            exists stiefel_m stiefel_n name,
              [/\ Stiefel.__init__ m k 1 = Ok stiefel_m,
                  Stiefel.__init__ n k 1 = Ok stiefel_n
                & FixedRankEmbedded.__init__ m n k
                  = Ok (FixedRankEmbedded.Make m n k stiefel_m stiefel_n
                          (Manifold.__init__ name ((m + n - k) * k)%Z
                             (LInt 3)))]].
Proof.
move=> si fi; split; split.
- exact: Stiefel_init_invalid.
- exact: Stiefel_init_in_range.
- exact: Stiefel_init_small.
- exact: FixedRank_init_invalid.
- exact: FixedRank_init_invalid_in_range.
- exact: FixedRank_init_in_range.
Qed.

Lemma init_raises_on_invalid_shape_and_returns_in_float_range_witness :
  [/\ is_ValueError (Stiefel.__init__ 2 3 1),
      is_Ok (Stiefel.__init__ (2 ^ 60) 3 2),
      exists name,
        Stiefel.__init__ 5 3 2
        = Ok (Stiefel.Make 5 3 2
                (Manifold.__init__ name (2 * (5 * 3 - 3 * (3 + 1) / 2))%Z
                   (LInt 1))),
      is_ValueError (FixedRankEmbedded.__init__ 5 4 6)
    & exists stiefel_m stiefel_n name,
        [/\ Stiefel.__init__ 5 3 1 = Ok stiefel_m,
            Stiefel.__init__ 4 3 1 = Ok stiefel_n
          & FixedRankEmbedded.__init__ 5 4 3
            = Ok (FixedRankEmbedded.Make 5 4 3 stiefel_m stiefel_n
                    (Manifold.__init__ name ((5 + 4 - 3) * 3)%Z (LInt 3)))]].
Proof.
split.
- have := init_raises_on_invalid_shape_and_returns_in_float_range 0 2 3 1.
  by cbv zeta; case=> -[h _ _] _; apply: h; Lia.lia.
- have :=
    init_raises_on_invalid_shape_and_returns_in_float_range 0 (2 ^ 60) 3 2.
  by cbv zeta; case=> -[_ h _] _; apply: h; [Lia.lia|].
- have := init_raises_on_invalid_shape_and_returns_in_float_range 0 5 3 2.
  by cbv zeta; case=> -[_ _ h] _; apply: h; [Lia.lia|].
- have := init_raises_on_invalid_shape_and_returns_in_float_range 5 4 1 6.
  by cbv zeta; case=> _ [_ h _]; apply: h; [Lia.lia|].
- have := init_raises_on_invalid_shape_and_returns_in_float_range 5 4 1 3.
  by cbv zeta; case=> _ [_ _ h]; apply: h; [Lia.lia| |].
Defined.

(** [Stiefel(10 ** 309, 1)] and [FixedRankEmbedded(10 ** 309, 10 ** 309, 1)]
    have a valid shape and raise an [OverflowError]: [10 ** 309] is beyond
    the range of the floats. *)
Lemma init_overflows_on_a_valid_shape :
  let n := (10 ^ 309)%Z in
  [/\ ~ (n < 1 \/ 1 < 1 \/ 1 < 1)%Z,
      Stiefel.__init__ n 1 1
      = Raise (OverflowError "int too large to convert to float"),
      ~ (1 > Z.min n n \/ 1 < 1 \/ n <= 0 \/ n <= 0)%Z
    & FixedRankEmbedded.__init__ n n 1
      = Raise (OverflowError "int too large to convert to float")].
Proof.
by split; vm_compute=> //; intuition discriminate.
Qed.

(** *** [Product.__init__] *)

Lemma raise_or_ok (A : Type) (r : result A) (b : bool) (P : Prop) :
  reflect P b -> (if b then is_ValueError r else is_Ok r) ->
  (is_ValueError r <-> P) /\ (is_Ok r <-> ~ P).
Proof.
by case=> hP; case: r => [a|[]] //= _; split; split.
Qed.

Lemma size_check_manifolds (manifolds : seq Product.pyobj) ms :
  Product.check_manifolds manifolds = Ok ms -> size ms = size manifolds.
Proof.
elim: manifolds ms => [|[[s|f|d]|ty] rest IH] ms //=.
- by case=> <-.
- by case: Product.check_manifolds IH => //= ms' IH [<-] /=; rewrite (IH ms').
- by case: Product.check_manifolds IH => //= ms' IH [<-] /=; rewrite (IH ms').
Qed.

(** C10: [Product()] with no argument raises the [ValueError] "At least one
    manifold required", and a constructed [Product] holds one factor per
    argument, so at least one. *)
Theorem Product_init_requires_a_factor :
  Product.__init__ [::] = Raise (ValueError "At least one manifold required")
  /\ forall (manifolds : seq Product.pyobj) (self : Product.t),
       Product.__init__ manifolds = Ok self ->
       exists ms, [/\ Product._manifolds self = Some ms,
                      size ms = size manifolds & (1 <= size ms)%N].
Proof.
split=> // manifolds self.
rewrite /Product.__init__.
case: manifolds => [|a rest] //.
rewrite [size _ == _]/=.
case hms: (Product.check_manifolds (a :: rest)) => [ms|] //.
move=> hself; exists ms; rewrite (size_check_manifolds hms); split=> //.
by move: hself; rewrite /Product.Manifold__init__ /Product.__setattr__ /=;
   case=> <-.
Qed.

Definition St21 : Product.pyobj :=
  Product.PyManifold (Product.MStiefel
    (Stiefel.Make 2 1 1
       (Manifold.__init__ "Stiefel manifold St(2,1)" 1 (LInt 1)))).

Lemma Product_init_requires_a_factor_witness :
  exists self, Product.__init__ [:: St21] = Ok self /\
  exists ms, [/\ Product._manifolds self = Some ms,
                 size ms = size [:: St21] & (1 <= size ms)%N].
Proof.
eexists; split; first by vm_compute; reflexivity.
exact: (proj2 Product_init_requires_a_factor [:: St21] _ (erefl _)).
Defined.

(** C2, on the code: after [P = Product(Stiefel(2, 1))], the assignment
    [P._manifolds = ()] is accepted and replaces the factor list, and the
    assignment [P.manifolds = ()] is accepted too, because no attribute of
    that name exists yet ([hasattr(P, "manifolds")] is false): it binds a new
    attribute next to the factor list. *)
Theorem Product_setattr_rebinds_factor_list :
  (s <- Stiefel.__init__ 2 1 1 ;;
   P <- Product.__init__ [:: Product.PyManifold (Product.MStiefel s)] ;;
   P1 <- Product.__setattr__ P "_manifolds" (Product.VManifolds [::]) ;;
   P2 <- Product.__setattr__ P "manifolds" (Product.VManifolds [::]) ;;
   Ok (Product._manifolds P, Product._manifolds P1,
       Product.hasattr P "manifolds", Product.lookup (Product.__dict__ P2) "manifolds"))
  = Ok (Some [:: Product.MStiefel
                   (Stiefel.Make 2 1 1
                      (Manifold.__init__ "Stiefel manifold St(2,1)" 1
                         (LInt 1)))],
        Some [::], false, Some (Product.VManifolds [::])).
Proof. by vm_compute. Qed.

(** ** The Stiefel manifold *)

Module StiefelTheory.

Import multi Blocks.

Section Arrays.

Variables (m n : nat).

Lemma blockP (k : nat) (A B : ndarray k m n) :
  (forall i, block A i = block B i) -> A = B.
Proof.
case: k A B => [|[|k]] A B h.
- by apply/ffunP; case.
- exact: (h ord0).
- by apply/ffunP => i; exact: (h i).
Qed.

Lemma block_add (k : nat) (A B : ndarray k m n) i :
  block (A + B) i = block A i + block B i.
Proof.
case: k A B i => [|[|k]] A B i; [by case: i|by []|].
by rewrite /block ffunE.
Qed.

Lemma block_opp (k : nat) (A : ndarray k m n) i :
  block (- A) i = - block A i.
Proof.
case: k A i => [|[|k]] A i; [by case: i|by []|].
by rewrite /block ffunE.
Qed.

Lemma block_sub (k : nat) (A B : ndarray k m n) i :
  block (A - B) i = block A i - block B i.
Proof. by rewrite -> block_add, block_opp. Qed.

Lemma block_scale (k : nat) (a : R) (A : ndarray k m n) i :
  block (a *: A) i = a *: block A i.
Proof.
case: k A i => [|[|k]] A i; [by case: i|by []|].
by rewrite /block ffunE.
Qed.

Lemma block_zero (k : nat) i : block (0 : ndarray k m n) i = 0.
Proof.
case: k i => [|[|k]] i; [by case: i|by []|].
by rewrite /block ffunE.
Qed.

Lemma block_multitransp (k : nat) (A : ndarray k m n) i :
  block (multitransp A) i = (block A i)^T.
Proof.
case: k A i => [|[|k]] A i; [by case: i|by []|].
by rewrite /block /multitransp ffunE.
Qed.

End Arrays.

Lemma block_multiprod (k m n p : nat) (A : ndarray k m n) (B : ndarray k n p)
  i : block (multiprod A B) i = block A i *m block B i.
Proof.
case: k A B i => [|[|k]] A B i; [by case: i|by []|].
by rewrite /block /multiprod ffunE.
Qed.

Lemma block_multisym (k n : nat) (A : ndarray k n n) i :
  block (multisym A) i = np.half *: (block A i + (block A i)^T).
Proof.
by rewrite /multisym; rewrite -> block_scale, block_add, block_multitransp.
Qed.

Section Projection.

Variables (n p : nat).

Lemma half_double : np.half + np.half = 1 :> R.
Proof. by rewrite /np.half -mulr2n -mulr_natl divff // pnatr_eq0. Qed.

Lemma tensordot2_trace (G H : 'M[R]_(n, p)) :
  np.tensordot2 G H = \tr (G^T *m H).
Proof.
rewrite /np.tensordot2 /mxtrace exchange_big /=.
by apply: eq_bigr => j _; rewrite mxE; apply: eq_bigr => i _; rewrite mxE.
Qed.

Lemma tensordot2_sym (G H : 'M[R]_(n, p)) :
  np.tensordot2 G H = np.tensordot2 H G.
Proof.
by apply: eq_bigr => i _; apply: eq_bigr => j _; rewrite mulrC.
Qed.

Lemma proj_block_fixed (X P : 'M[R]_(n, p)) :
  (X^T *m P)^T = - (X^T *m P) -> Stiefel.proj (k := 1) X P = P.
Proof.
rewrite /Stiefel.proj /multisym /multiprod /multitransp => ->.
by rewrite subrr scaler0 mulmx0 subr0.
Qed.

Lemma proj_block_skew (X U : 'M[R]_(n, p)) :
  X^T *m X = 1%:M ->
  (X^T *m Stiefel.proj (k := 1) X U)^T = - (X^T *m Stiefel.proj (k := 1) X U).
Proof.
rewrite /Stiefel.proj /multisym /multiprod /multitransp => hX.
set A := X^T *m U.
rewrite mulmxBr mulmxA hX mul1mx.
apply/matrixP => i j; rewrite !mxE /np.half.
lra.
Qed.

Lemma block_proj (k : nat) (X U : ndarray k n p) i :
  block (Stiefel.proj X U) i = Stiefel.proj (k := 1) (block X i) (block U i).
Proof.
rewrite /Stiefel.proj.
rewrite -> block_sub, block_multiprod, block_multisym, block_multiprod.
by rewrite -> block_multitransp.
Qed.

Lemma proj_tangent (k : nat) (X U : ndarray k n p) :
  orthonormal X -> tangent X (Stiefel.proj X U).
Proof.
by move=> hX i; rewrite -> block_proj; exact: proj_block_skew (hX i).
Qed.

Lemma proj_fixed (k : nat) (X P : ndarray k n p) :
  tangent X P -> Stiefel.proj X P = P.
Proof.
move=> hP; apply: blockP => i; rewrite -> block_proj.
exact: proj_block_fixed (hP i).
Qed.

Lemma proj_idem (k : nat) (X U : ndarray k n p) :
  orthonormal X -> Stiefel.proj X (Stiefel.proj X U) = Stiefel.proj X U.
Proof. by move=> hX; apply: proj_fixed; exact: proj_tangent. Qed.

End Projection.

Section Metric.

Variables (n p : nat).

Lemma inner_frobenius (k : nat) (X G H : ndarray k n p) :
  Stiefel.inner X G H = frobenius G H.
Proof.
rewrite /frobenius; case: k X G H => [|[|k]] X G H.
- by rewrite /Stiefel.inner /np.tensordot3 !big_ord0.
- by rewrite big_ord1; exact: tensordot2_trace.
- rewrite /Stiefel.inner /np.tensordot3; apply: eq_bigr => b _.
  exact: tensordot2_trace.
Qed.

Lemma inner_sym (k : nat) (X G H : ndarray k n p) :
  Stiefel.inner X G H = Stiefel.inner X H G.
Proof.
case: k X G H => [|[|k]] X G H.
- by rewrite /Stiefel.inner /np.tensordot3 !big_ord0.
- exact: tensordot2_sym.
- rewrite /Stiefel.inner /np.tensordot3; apply: eq_bigr => b _.
  exact: tensordot2_sym.
Qed.

Lemma norm_inner (k : nat) (X G : ndarray k n p) :
  Stiefel.norm X G = np.sqrt (Stiefel.inner X G G).
Proof.
case: k X G => [|[|k]] X G.
- by rewrite /Stiefel.inner /Stiefel.norm /np.norm3 /np.tensordot3 !big_ord0.
- rewrite /Stiefel.inner /Stiefel.norm /np.norm2 /np.tensordot2.
  by congr np.sqrt; do ?[apply: eq_bigr => ? _]; rewrite ?expr2.
- rewrite /Stiefel.inner /Stiefel.norm /np.norm3 /np.tensordot3.
  by congr np.sqrt; do ?[apply: eq_bigr => ? _]; rewrite ?expr2.
Qed.

End Metric.

Lemma sign_unflip (x : R) :
  np.sign (np.sign x + np.half)%R = if 0 <= x then 1 else -1.
Proof.
have h1 : 0 < 1 + 2%:R^-1 :> R by rewrite addr_gt0 // invr_gt0 ltr0n.
have h2 : -1 + 2%:R^-1 < 0 :> R.
  by rewrite addrC subr_lt0 invf_lt1 ?ltr0n // ltr1n.
have h3 : 0 < 2%:R^-1 :> R by rewrite invr_gt0 ltr0n.
rewrite /np.sign /np.half; case: (ltrgt0P x) => hx.
- by rewrite (gtr0_sg hx) gtr0_sg.
- by rewrite (ltr0_sg hx) ltr0_sg.
- have -> : Num.sg x = 0 by rewrite hx sgr0.
  by rewrite add0r gtr0_sg.
Qed.

Lemma unflipE (p : nat) (r : 'M[R]_p) :
  Stiefel.unflip r = diag_mx (\row_i (if 0 <= r i i then 1 else -1)).
Proof.
rewrite /Stiefel.unflip; congr diag_mx; apply/rowP => i.
by rewrite !mxE; exact: sign_unflip.
Qed.

Lemma unflip_tr (p : nat) (r : 'M[R]_p) :
  (Stiefel.unflip r)^T = Stiefel.unflip r.
Proof. by rewrite /Stiefel.unflip tr_diag_mx. Qed.

Lemma unflip_sq (p : nat) (r : 'M[R]_p) :
  Stiefel.unflip r *m Stiefel.unflip r = 1%:M.
Proof.
rewrite unflipE mulmx_diag -diag_const_mx; congr diag_mx.
by apply/rowP => i; rewrite !mxE; case: ifP => _; rewrite ?mulrNN mulr1.
Qed.

(** A loop that assigns the block [i] from the block [i] it finds, over
    distinct indices. *)
Lemma foldl_setitem (k : nat) (T : Type) (f : 'I_k -> T -> T)
  (g : {ffun 'I_k -> T} -> 'I_k -> {ffun 'I_k -> T}) :
  (forall Y j, g Y j = np.setitem Y j (f j (Y j))) ->
  forall (s : seq 'I_k) (A : {ffun 'I_k -> T}) i, uniq s ->
  foldl g A s i = if i \in s then f i (A i) else A i.
Proof.
move=> hg; elim=> [|j s IH] A i //= /andP[js us].
rewrite IH // hg /np.setitem !ffunE in_cons.
case: (i =P j) => [->|_] /=; last by [].
by rewrite (negbTE js).
Qed.

Lemma foldl_setitem_enum (k : nat) (T : Type) (f : 'I_k -> T -> T)
  (g : {ffun 'I_k -> T} -> 'I_k -> {ffun 'I_k -> T}) :
  (forall Y j, g Y j = np.setitem Y j (f j (Y j))) ->
  forall (A : {ffun 'I_k -> T}) i, foldl g A (enum 'I_k) i = f i (A i).
Proof.
by move=> hg A i; rewrite (foldl_setitem hg) ?enum_uniq // mem_enum.
Qed.

Section Loops.

Variable qr : forall n p : nat, 'M[R]_(n, p) -> 'M[R]_(n, p) * 'M[R]_p.
Variable expm : forall d : nat, 'M[R]_d -> 'M[R]_d.
Variables (n p : nat).

Lemma block_retr (k : nat) (X G : ndarray k n p) i :
  block (Stiefel.retr qr X G) i
  = Stiefel.retr qr (k := 1) (block X i) (block G i).
Proof.
case: k X G i => [|[|k]] X G i; [by case: i|by []|].
rewrite /block /Stiefel.retr.
rewrite (@foldl_setitem_enum _ _
           (fun _ A => let: (q, r) := qr A in q *m Stiefel.unflip r));
  first by move=> Y j; case: (qr (Y j)).
have -> // : (X + G) i = X i + G i.
exact: (block_add X G i).
Qed.

Lemma block_rand (k : nat) (randn : ndarray k n p) i :
  block (Stiefel.rand qr randn) i = Stiefel.rand qr (k := 1) (block randn i).
Proof.
case: k randn i => [|[|k]] randn i; [by case: i|by []|].
rewrite /block /Stiefel.rand.
rewrite (@foldl_setitem_enum _ _ (fun j _ => let: (q, r) := qr (randn j) in q))
  //.
by move=> Y j; case: (qr (randn j)).
Qed.

Lemma block_exp (k : nat) (X U : ndarray k n p) i :
  block (Stiefel.exp expm X U) i
  = Stiefel.exp expm (k := 1) (block X i) (block U i).
Proof.
case: k X U i => [|[|k]] X U i; [by case: i|by []|].
rewrite /block /Stiefel.exp.
by rewrite (@foldl_setitem_enum _ _
              (fun j _ => Stiefel.exp_block expm (X j) (U j))).
Qed.

End Loops.

Section Curves.

Variable qr : forall n p : nat, 'M[R]_(n, p) -> 'M[R]_(n, p) * 'M[R]_p.
Variable expm : forall d : nat, 'M[R]_d -> 'M[R]_d.
Variables (n p : nat).

Lemma retr_block_orthonormal (X G : 'M[R]_(n, p)) :
  ((qr (X + G)).1)^T *m (qr (X + G)).1 = 1%:M ->
  (Stiefel.retr qr (k := 1) X G)^T *m Stiefel.retr qr (k := 1) X G = 1%:M.
Proof.
rewrite /Stiefel.retr; case: (qr (X + G)) => q r /= hq.
by rewrite trmx_mul unflip_tr mulmxA -(mulmxA _ q^T) hq mulmx1 unflip_sq.
Qed.

Lemma exp_block_zero (X : 'M[R]_(n, p)) :
  (forall d (B : 'M[R]_d), B *m B = 0 -> expm B = 1%:M + B) ->
  Stiefel.exp_block expm X 0 = X.
Proof.
move=> hexp; rewrite /Stiefel.exp_block !mulmx0.
have h0 : expm (0 : 'M[R]_p) = 1%:M by rewrite hexp ?addr0 // mulmx0.
have hN : expm (block_mx 0 0 1%:M 0 : 'M[R]_(p + p))
          = 1%:M + block_mx 0 0 1%:M 0.
  apply: hexp; rewrite mulmx_block !(mulmx0, mul0mx, addr0).
  exact: block_mx0.
rewrite h0 hN mulmxDr mulmx1 mul_row_block !(mulmx0, mul0mx, addr0) row_mx0.
by rewrite addr0 mul_row_col mulmx1 mul0mx addr0.
Qed.

End Curves.

Lemma cancel4 (V : zmodType) (a b : V) : (- a + b) + (- b + a) = 0.
Proof. by rewrite addrA addrK addNr. Qed.

Lemma cancel3 (V : zmodType) (a : V) : (- a - a) + (a + a) = 0.
Proof. by rewrite addrACA addNr addr0. Qed.

Lemma cancel5 (V : zmodType) (a b : V) : (- a - b) + (b + a) = 0.
Proof. by rewrite addrA addrNK addNr. Qed.

Section Geodesic.

Variable expm : forall d : nat, 'M[R]_d -> 'M[R]_d.
Variables (n p : nat).

Lemma exp_block_orthonormal (X U : 'M[R]_(n, p)) :
  X^T *m X = 1%:M -> (X^T *m U)^T = - (X^T *m U) ->
  expm_preserves_forms expm
    (block_mx (X^T *m U) (- U^T *m U) 1%:M (X^T *m U)) ->
  expm_preserves_forms expm (- X^T *m U) ->
  (Stiefel.exp_block expm X U)^T *m Stiefel.exp_block expm X U = 1%:M.
Proof.
move=> hX hA hW hE; rewrite /Stiefel.exp_block.
set A := X^T *m U in hA hW hE *.
set W := expm (block_mx _ _ _ _); set E := expm _.
pose Gm : 'M[R]_(p + p) := block_mx 1%:M A A^T (U^T *m U).
have hG : (row_mx X U)^T *m row_mx X U = Gm.
  by rewrite tr_row_mx mul_col_row hX -/A -[U^T *m X]trmxK trmx_mul trmxK.
have hWG : W^T *m Gm *m W = Gm.
  apply: hW; rewrite tr_block_mx trmx1 /Gm !mulmx_block.
  rewrite add_block_mx !mulmx1 !mul1mx hA.
  rewrite trmx_mul linearN /= trmxK !mulNmx !mulmxN ?opprK !mulNmx.
  rewrite cancel3 !cancel4 cancel5.
  exact: block_mx0.
have hEE : E^T *m E = 1%:M.
  rewrite -[E^T]mulmx1; apply: hE.
  by rewrite mulmx1 mul1mx mulNmx linearN /= -/A hA opprK addrC addNr.
set Z := col_mx E 0.
have -> : (row_mx X U *m W *m Z)^T *m (row_mx X U *m W *m Z)
          = Z^T *m (W^T *m ((row_mx X U)^T *m row_mx X U) *m W) *m Z.
  by rewrite !trmx_mul !mulmxA.
rewrite hG hWG /Z tr_col_mx trmx0 /Gm mul_row_block !mul0mx !addr0 mulmx1.
by rewrite mul_row_col mulmx0 addr0.
Qed.

End Geodesic.

Lemma sqrt_sqr_id (q : R) : 0 <= q -> np.sqrt q * np.sqrt q = q.
Proof. by move=> /RlebP hq; exact: sqrt_sqrt. Qed.

Lemma sqrt_one : np.sqrt 1 = 1.
Proof. exact: sqrt_1. Qed.

Section Norms.

Variables (n p : nat).

Lemma tensordot2_scale (a : R) (G H : 'M[R]_(n, p)) :
  np.tensordot2 (a *: G) H = a * np.tensordot2 G H.
Proof.
rewrite /np.tensordot2 mulr_sumr; apply: eq_bigr => i _.
by rewrite mulr_sumr; apply: eq_bigr => j _; rewrite mxE mulrA.
Qed.

Lemma tensordot2_ge0 (G : 'M[R]_(n, p)) : 0 <= np.tensordot2 G G.
Proof.
by apply: sumr_ge0 => i _; apply: sumr_ge0 => j _; rewrite -expr2 sqr_ge0.
Qed.

Lemma inner_scale (k : nat) (a : R) (X G H : ndarray k n p) :
  Stiefel.inner X (a *: G) H = a * Stiefel.inner X G H.
Proof.
case: k X G H => [|[|k]] X G H.
- by rewrite /Stiefel.inner /np.tensordot3 !big_ord0 mulr0.
- exact: tensordot2_scale.
- rewrite /Stiefel.inner /np.tensordot3 mulr_sumr; apply: eq_bigr => b _.
  have -> : (a *: G) b = a *: G b by exact: (block_scale a G b).
  exact: tensordot2_scale.
Qed.

Lemma inner_ge0 (k : nat) (X G : ndarray k n p) : 0 <= Stiefel.inner X G G.
Proof.
case: k X G => [|[|k]] X G.
- by rewrite /Stiefel.inner /np.tensordot3 !big_ord0.
- exact: tensordot2_ge0.
- rewrite /Stiefel.inner /np.tensordot3; apply: sumr_ge0 => b _.
  exact: tensordot2_ge0.
Qed.

Lemma norm_unit (k : nat) (X U : ndarray k n p) :
  Stiefel.norm X U != 0 ->
  Stiefel.norm X ((Stiefel.norm X U)^-1 *: U) = 1.
Proof.
move=> hc; rewrite [LHS]norm_inner inner_scale inner_sym inner_scale.
have hq := sqrt_sqr_id (inner_ge0 X U).
rewrite -norm_inner in hq.
by rewrite -[Stiefel.inner X U U]hq mulrA mulrACA mulVf // mulr1 sqrt_one.
Qed.

Lemma tangent_scale (k : nat) (a : R) (X U : ndarray k n p) :
  tangent X U -> tangent X (a *: U).
Proof.
move=> hU i; rewrite -> block_scale.
by rewrite -scalemxAr linearZ /= hU scalerN.
Qed.

Lemma proj_block_linear (a : R) (X U V : 'M[R]_(n, p)) :
  Stiefel.proj (k := 1) X (a *: U + V)
  = a *: Stiefel.proj (k := 1) X U + Stiefel.proj (k := 1) X V.
Proof.
rewrite /Stiefel.proj /multisym /multiprod /multitransp.
set A := X^T *m U; set B := X^T *m V.
have -> : X^T *m (a *: U + V) = a *: A + B by rewrite mulmxDr -scalemxAr.
have -> : (a *: A + B)^T = a *: A^T + B^T by rewrite linearD /= linearZ.
have -> : a *: A + B + (a *: A^T + B^T) = a *: (A + A^T) + (B + B^T).
  by rewrite addrACA -scalerDr.
rewrite scalerDr scalerA [np.half * a]mulrC -scalerA mulmxDr -scalemxAr.
by rewrite scalerBr opprD addrACA.
Qed.

Lemma proj_linear (k : nat) (a : R) (X U V : ndarray k n p) :
  Stiefel.proj X (a *: U + V) = a *: Stiefel.proj X U + Stiefel.proj X V.
Proof.
apply: blockP => i.
rewrite -> block_proj, !block_add, !block_scale, !block_proj.
exact: proj_block_linear.
Qed.

Lemma proj_block_residual (X U : 'M[R]_(n, p)) :
  X^T *m X = 1%:M ->
  np.tensordot2 (Stiefel.proj (k := 1) X U) (U - Stiefel.proj (k := 1) X U)
  = 0.
Proof.
move=> hX; have hK := proj_block_skew U hX; move: hK.
rewrite tensordot2_trace; set P := Stiefel.proj (k := 1) X U => hK.
have -> : U - P = X *m (np.half *: (X^T *m U + (X^T *m U)^T)).
  rewrite /P /Stiefel.proj /multisym /multiprod /multitransp.
  by rewrite opprB addrC subrK.
set S := np.half *: _.
have hS : S^T = S by rewrite /S linearZ /= linearD /= trmxK addrC.
rewrite mulmxA -[P^T *m X]trmxK trmx_mul trmxK hK.
have e : \tr (X^T *m P *m S) = - \tr (X^T *m P *m S).
  by rewrite -[in LHS]mxtrace_tr trmx_mul hS hK mulmxN raddfN /= mxtrace_mulC.
rewrite mulNmx raddfN /=; move: e; set t := \tr _ => e.
by lra.
Qed.

End Norms.

(** *** Properties of the operations *)

(** X1: on a point with orthonormal columns, [Stiefel.proj] is idempotent:
    projecting a projected vector changes nothing, for every block
    count. *)
Theorem proj_idempotent (n p k : nat) (X U : ndarray k n p) :
  orthonormal X -> Stiefel.proj X (Stiefel.proj X U) = Stiefel.proj X U.
Proof. exact: proj_idem. Qed.

Lemma e1_orthonormal : orthonormal (k := 1) Examples.e1.
Proof.
move=> i; rewrite /block /Examples.e1 tr_col_mx mul_row_col.
by rewrite trmx1 mulmx1 mulmx0 addr0.
Qed.

Lemma e1_e2 : Examples.e1^T *m Examples.e2 = 0.
Proof.
rewrite /Examples.e1 /Examples.e2 tr_col_mx mul_row_col.
by rewrite trmx0 mulmx0 mul0mx addr0.
Qed.

Lemma e2_tangent : tangent (k := 1) Examples.e1 Examples.e2.
Proof. by move=> i; rewrite /block e1_e2 trmx0 oppr0. Qed.

Lemma proj_idempotent_witness :
  Stiefel.proj (k := 1) Examples.e1
    (Stiefel.proj (k := 1) Examples.e1 Examples.e2)
  = Stiefel.proj (k := 1) Examples.e1 Examples.e2.
Proof.
exact: (@proj_idempotent (1 + 1) 1 1 Examples.e1 Examples.e2
          e1_orthonormal).
Defined.

(** X2: on a point with orthonormal columns, the results of [Stiefel.proj],
    [Stiefel.ehess2rhess] and [Stiefel.transp] are tangent vectors: [Xt V]
    is skew-symmetric in every block. *)
Theorem proj_results_are_tangent (n p k : nat)
  (X x1 U egrad ehess H d : ndarray k n p) :
  orthonormal X ->
  [/\ tangent X (Stiefel.proj X U),
      tangent X (Stiefel.ehess2rhess X egrad ehess H)
    & tangent X (Stiefel.transp x1 X d)].
Proof. by move=> hX; split; exact: proj_tangent. Qed.

Lemma proj_results_are_tangent_witness :
  [/\ tangent (k := 1) Examples.e1
        (Stiefel.proj (k := 1) Examples.e1 Examples.e2),
      tangent (k := 1) Examples.e1
        (Stiefel.ehess2rhess (k := 1) Examples.e1 Examples.e2 Examples.e2
           Examples.e2)
    & tangent (k := 1) Examples.e1
        (Stiefel.transp (k := 1) Examples.e1 Examples.e1 Examples.e2)].
Proof.
exact: (@proj_results_are_tangent (1 + 1) 1 1 Examples.e1 Examples.e1
          Examples.e2 Examples.e2 Examples.e2 Examples.e2 Examples.e2
          e1_orthonormal).
Defined.

(** X3: [Stiefel.proj] leaves a tangent vector at [X] unchanged, and so does
    [Stiefel.transp] from any point to [X]. *)
Theorem proj_fixes_tangent_vectors (n p k : nat) (X x1 P : ndarray k n p) :
  tangent X P -> Stiefel.proj X P = P /\ Stiefel.transp x1 X P = P.
Proof. by move=> hP; split; exact: proj_fixed. Qed.

Lemma proj_fixes_tangent_vectors_witness :
  Stiefel.proj (k := 1) Examples.e1 Examples.e2 = Examples.e2
  /\ Stiefel.transp (k := 1) Examples.e1 Examples.e1 Examples.e2 = Examples.e2.
Proof. exact: (@proj_fixes_tangent_vectors (1 + 1) 1 1 Examples.e1 Examples.e1
          Examples.e2 e2_tangent). Defined.

(** X4: [Stiefel.proj] is linear in the vector it projects. *)
Theorem proj_is_linear (n p k : nat) (a : R) (X U V : ndarray k n p) :
  Stiefel.proj X (a *: U + V) = a *: Stiefel.proj X U + Stiefel.proj X V.
Proof. exact: proj_linear. Qed.

(** X5: on a point with orthonormal columns, what [Stiefel.proj] removes
    from [U] is orthogonal to what it keeps, in the inner product of the
    manifold. *)
Theorem proj_residual_is_orthogonal (n p k : nat) (X U : ndarray k n p) :
  orthonormal X ->
  Stiefel.inner X (Stiefel.proj X U) (U - Stiefel.proj X U) = 0.
Proof.
move=> hX; rewrite inner_frobenius /frobenius big1 // => i _.
rewrite -tensordot2_trace; rewrite -> block_sub, block_proj.
exact: proj_block_residual (hX i).
Qed.

Lemma proj_residual_is_orthogonal_witness :
  Stiefel.inner (k := 1) Examples.e1
    (Stiefel.proj (k := 1) Examples.e1 Examples.e2)
    (Examples.e2 - Stiefel.proj (k := 1) Examples.e1 Examples.e2) = 0.
Proof. exact: (@proj_residual_is_orthogonal (1 + 1) 1 1 Examples.e1 Examples.e2
          e1_orthonormal). Defined.

(** X6: [Stiefel.inner] is the Frobenius inner product (the trace of
    [Gt H], summed over the blocks); it is symmetric, and [Stiefel.norm] is
    the square root of the inner product of a vector with itself. *)
Theorem inner_is_frobenius (n p k : nat) (X G H : ndarray k n p) :
  [/\ Stiefel.inner X G H = frobenius G H,
      Stiefel.inner X G H = Stiefel.inner X H G
    & Stiefel.norm X G = np.sqrt (Stiefel.inner X G G)].
Proof.
split; [exact: inner_frobenius|exact: inner_sym|exact: norm_inner].
Qed.

(** X7: the sign correction of [Stiefel.retr],
    [np.diag(np.sign(np.sign(np.diag(r)) + 0.5))], is the diagonal matrix
    with 1 where the diagonal of [r] is not negative and -1 elsewhere; it is
    its own inverse. *)
Theorem unflip_is_a_sign_matrix (p : nat) (r : 'M[R]_p) :
  Stiefel.unflip r = diag_mx (\row_i (if 0 <= r i i then 1 else -1))
  /\ Stiefel.unflip r *m Stiefel.unflip r = 1%:M.
Proof. by split; [exact: unflipE|exact: unflip_sq]. Qed.

(** X8: on a stack of [k] points, [proj], [retr], [rand] and [exp] act on
    each block as the operation for one point does: the loops over the
    blocks assign every block once, from the block of the same index. *)
Theorem operations_act_blockwise
  (qr : forall n p : nat, 'M[R]_(n, p) -> 'M[R]_(n, p) * 'M[R]_p)
  (expm : forall d : nat, 'M[R]_d -> 'M[R]_d)
  (n p k : nat) (X U : ndarray k n p) (i : 'I_k) :
  [/\ block (Stiefel.proj X U) i
      = Stiefel.proj (k := 1) (block X i) (block U i),
      block (Stiefel.retr qr X U) i
      = Stiefel.retr qr (k := 1) (block X i) (block U i),
      block (Stiefel.rand qr U) i = Stiefel.rand qr (k := 1) (block U i)
    & block (Stiefel.exp expm X U) i
      = Stiefel.exp expm (k := 1) (block X i) (block U i)].
Proof.
split; [exact: block_proj|exact: block_retr|exact: block_rand|].
exact: block_exp.
Qed.

(** X9: when the first factor of [np.linalg.qr] has orthonormal columns,
    the results of [Stiefel.retr] and [Stiefel.rand] have orthonormal
    columns in every block, whatever the arguments. *)
Theorem retr_and_rand_are_orthonormal
  (qr : forall n p : nat, 'M[R]_(n, p) -> 'M[R]_(n, p) * 'M[R]_p)
  (n p k : nat) (X G randn : ndarray k n p) :
  qr_orthonormal qr n p ->
  orthonormal (Stiefel.retr qr X G) /\ orthonormal (Stiefel.rand qr randn).
Proof.
move=> hqr; split=> i.
- by rewrite -> block_retr; apply: retr_block_orthonormal; exact: hqr.
- rewrite -> block_rand; rewrite /Stiefel.rand.
  by have := hqr (block randn i); case: (qr n p (block randn i)).
Qed.

Lemma qr_pid_orthonormal : qr_orthonormal Examples.qr_pid (1 + 1) 1.
Proof.
by move=> A; rewrite /Examples.qr_pid /= tr_pid_mx mul_pid_mx pid_mx_1.
Qed.

Lemma retr_and_rand_are_orthonormal_witness :
  orthonormal (Stiefel.retr Examples.qr_pid (k := 1) Examples.e1 Examples.e2)
  /\ orthonormal (Stiefel.rand Examples.qr_pid (k := 1) Examples.e2).
Proof.
exact: (@retr_and_rand_are_orthonormal Examples.qr_pid (1 + 1) 1 1
          Examples.e1 Examples.e2 Examples.e2 qr_pid_orthonormal).
Defined.

(** X10: on a point with orthonormal columns, when the projected draw has a
    norm other than 0, [Stiefel.randvec] returns a tangent vector of
    norm 1. *)
Theorem randvec_is_a_unit_tangent (n p k : nat) (randn X : ndarray k n p) :
  orthonormal X -> Stiefel.norm X (Stiefel.proj X randn) != 0 ->
  tangent X (Stiefel.randvec randn X)
  /\ Stiefel.norm X (Stiefel.randvec randn X) = 1.
Proof.
move=> hX hn; split; last exact: norm_unit.
by apply: tangent_scale; exact: proj_tangent.
Qed.

Lemma norm_e2 : Stiefel.norm (k := 1) Examples.e1 Examples.e2 = 1.
Proof.
rewrite (norm_inner (k := 1)) /Stiefel.inner tensordot2_trace.
rewrite /Examples.e2 tr_col_mx mul_row_col trmx0 trmx1 mul0mx mulmx1 add0r.
by rewrite mxtrace1 sqrt_one.
Qed.

Lemma randvec_is_a_unit_tangent_witness :
  tangent (k := 1) Examples.e1
    (Stiefel.randvec (k := 1) Examples.e2 Examples.e1)
  /\ Stiefel.norm (k := 1) Examples.e1
       (Stiefel.randvec (k := 1) Examples.e2 Examples.e1) = 1.
Proof.
apply: (@randvec_is_a_unit_tangent (1 + 1) 1 1 Examples.e2 Examples.e1
          e1_orthonormal).
by rewrite (@proj_fixed (1 + 1) 1 1 _ _ e2_tangent) norm_e2 oner_neq0.
Defined.

(** X11: when [scipy.linalg.expm] is exact on matrices of square zero,
    [Stiefel.exp] at the zero vector returns the point itself. *)
Theorem exp_of_zero (expm : forall d : nat, 'M[R]_d -> 'M[R]_d)
  (n p k : nat) (X : ndarray k n p) :
  expm_nilpotent expm -> Stiefel.exp expm X 0 = X.
Proof.
move=> hexp; apply: blockP => i; rewrite -> block_exp, block_zero.
by apply: exp_block_zero => d B; exact: hexp.
Qed.

Lemma expm_linear_nilpotent : expm_nilpotent Examples.expm_linear.
Proof. by []. Qed.

Lemma exp_of_zero_witness :
  Stiefel.exp Examples.expm_linear (k := 1) Examples.e1 0 = Examples.e1.
Proof. exact: (@exp_of_zero Examples.expm_linear (1 + 1) 1 1 Examples.e1
          expm_linear_nilpotent). Defined.

(** X12: on a point with orthonormal columns and a tangent vector [U]
    (block count 1), when [scipy.linalg.expm] maps the two matrices that
    [Stiefel.exp] exponentiates to matrices preserving the bilinear forms
    they are skew-adjoint for, the result of [Stiefel.exp] has orthonormal
    columns. *)
Theorem exp_is_orthonormal (expm : forall d : nat, 'M[R]_d -> 'M[R]_d)
  (n p : nat) (X U : 'M[R]_(n, p)) :
  orthonormal (k := 1) X -> tangent (k := 1) X U ->
  expm_preserves_forms expm
    (block_mx (X^T *m U) (- U^T *m U) 1%:M (X^T *m U)) ->
  expm_preserves_forms expm (- X^T *m U) ->
  orthonormal (k := 1) (Stiefel.exp expm (k := 1) X U).
Proof.
move=> hX hU hW hE i.
exact: (exp_block_orthonormal (hX ord0) (hU ord0) hW hE).
Qed.

Lemma expm_linear_preserves (d : nat) (B : 'M[R]_d) :
  B *m B = 0 -> expm_preserves_forms Examples.expm_linear B.
Proof.
move=> hB G hG; rewrite /Examples.expm_linear [(_ + _)^T]linearD /= trmx1.
have hBG : B^T *m G = - (G *m B).
  by apply/eqP; rewrite -subr_eq0 opprK hG.
rewrite mulmxDl mul1mx mulmxDr mulmx1 mulmxDl -addrA [B^T *m G + _]addrA hG.
by rewrite add0r hBG mulNmx -mulmxA hB mulmx0 oppr0 addr0.
Qed.

Lemma exp_is_orthonormal_witness :
  orthonormal (k := 1)
    (Stiefel.exp Examples.expm_linear (k := 1) Examples.e1 0).
Proof.
apply: (@exp_is_orthonormal Examples.expm_linear (1 + 1) 1 Examples.e1 0
          e1_orthonormal).
- by move=> i; rewrite /block mulmx0 trmx0 oppr0.
- apply: expm_linear_preserves; rewrite !mulmx0 mulmx_block.
  by rewrite !(mulmx0, mul0mx, addr0); exact: block_mx0.
- by apply: expm_linear_preserves; rewrite !mulmx0.
Defined.

End StiefelTheory.

(** ** The manifold of fixed-rank matrices *)

Module FixedRankTheory.

Import FixedRankEmbedded FixedRankVocabulary.
Import StiefelTheory.

Section Projection.

Variables (m n k : nat).

Implicit Types (X : point m n k) (Z : ambient m n).
Implicit Types (G H : _FixedRankTangentVector m n k).

Lemma apply_ambientE (c : nat) Z (W : 'M[R]_(n, c)) :
  _apply_ambient Z W = ambient_matrix Z *m W.
Proof. by case: Z. Qed.

Lemma apply_ambient_transposeE (c : nat) Z (W : 'M[R]_(m, c)) :
  symmetric_core Z -> _apply_ambient_transpose Z W = (ambient_matrix Z)^T *m W.
Proof.
case: Z => [Z|r Uz Sz Vz] //= hS.
by rewrite !trmx_mul trmxK hS mulmxA.
Qed.

Lemma proj_dense X Z :
  symmetric_core Z -> proj X Z = proj X (Dense (ambient_matrix Z)).
Proof.
by move=> hS; rewrite /proj !apply_ambientE (apply_ambient_transposeE _ hS).
Qed.

Lemma tangent_atP X G :
  tangent_at X G <-> (item0 X)^T *m Up G = 0 /\ item2 X *m Vp G = 0.
Proof.
rewrite /tangent_at; split=> -[h1 h2]; split.
- by rewrite -[LHS]trmxK trmx_mul trmxK h1 trmx0.
- by rewrite -[LHS]trmxK trmx_mul h2 trmx0.
- by rewrite -[LHS]trmxK trmx_mul trmxK h1 trmx0.
- by rewrite -[LHS]trmxK trmx_mul !trmxK h2 trmx0.
Qed.

Lemma fixed_proj_tangent X Z :
  orthonormal_factors X -> symmetric_core Z -> tangent_at X (proj X Z).
Proof.
move=> [hU hV] hS; apply/tangent_atP; rewrite (proj_dense _ hS).
set A := ambient_matrix Z; rewrite /proj /=; split.
- by rewrite mulmxBr !mulmxA hU mul1mx subrr.
- rewrite mulmxBr !mulmxA hV mul1mx.
  by rewrite !trmx_mul !trmxK !mulmxA subrr.
Qed.

Lemma to_ambient_proj X (A : 'M[R]_(m, n)) :
  let PU := item0 X *m (item0 X)^T in
  let PV := (item2 X)^T *m item2 X in
  to_ambient (proj X (Dense A)) X = PU *m A + A *m PV - PU *m A *m PV.
Proof.
rewrite /to_ambient /proj /=.
set U := item0 X; set Vt := item2 X.
rewrite !mulmxBl linearB /= !trmx_mul !trmxK mulmxBr !mulmxA.
by rewrite [X in X + (_ - _)]addrC subrK addrA [X in X - _ = _]addrC.
Qed.

Lemma ambient_tangent2ambient X G :
  ambient_matrix (tangent2ambient X G) = to_ambient G X
  /\ symmetric_core (tangent2ambient X G).
Proof.
split; last by rewrite /= trmx1.
rewrite /tangent2ambient /to_ambient /= mulmx1 tr_row_mx trmxK mul_row_col.
by rewrite mulmxDl.
Qed.

Lemma transp_tangent X G :
  orthonormal_factors X -> tangent_at X G -> transp X X G = G.
Proof.
move=> [hU hV] hG; have [hUp hVp] := hG; have /tangent_atP[hUp' hVp'] := hG.
have [hA hS] := ambient_tangent2ambient X G.
rewrite /transp (proj_dense _ hS) hA /proj /to_ambient /=.
case: G hG hUp hVp hUp' hVp' hA hS => up mm vp /= _ hUp hVp hUp' hVp' _ _.
set U := item0 X in hU hUp hUp' *; set Vt := item2 X in hV hVp hVp' *.
have e1 : (U *m mm *m Vt + up *m Vt + U *m vp^T) *m Vt^T = U *m mm + up.
  by rewrite !mulmxDl -!mulmxA hV hVp !mulmx1 mulmx0 addr0.
have e2 : (U *m mm *m Vt + up *m Vt + U *m vp^T)^T *m U = Vt^T *m mm^T + vp.
  rewrite !linearD /= !trmx_mul trmxK !mulmxDl -!mulmxA hU hUp !mulmx1 mulmx0.
  by rewrite addr0.
rewrite e1 e2 mulmxDr mulmxA hU mul1mx hUp' addr0.
by rewrite [U *m mm + up]addrC addrK addrC addKr.
Qed.

Lemma proj_raw_tuple X G : tangent_at X G -> proj X (as_tuple G) = zerovec X.
Proof.
move=> [hUp hVp].
rewrite /proj /as_tuple /zerovec /=.
by rewrite -!mulmxA hUp hVp !mulmx0 trmx0 ?mulmx0 !subr0.
Qed.

Lemma tangent_tangent X G :
  orthonormal_factors X -> tangent_at X (_tangent X G).
Proof.
move=> [hU hV]; apply/tangent_atP; rewrite /_tangent /=; split.
- by rewrite mulmxBr !mulmxA hU mul1mx subrr.
- by rewrite mulmxBr !mulmxA hV mul1mx subrr.
Qed.

Lemma tangent_fixed X G : tangent_at X G -> _tangent X G = G.
Proof.
move=> /tangent_atP[hUp hVp]; case: G hUp hVp => up mm vp /= hUp hVp.
by rewrite /_tangent /= -!mulmxA hUp hVp !mulmx0 !subr0.
Qed.

End Projection.

Ltac normal_form := rewrite !(tensordot2_trace, trmx_mul, trmxK, mulmxA).

Lemma tensordot2_add (m n : nat) (G1 G2 H : 'M[R]_(m, n)) :
  np.tensordot2 (G1 + G2) H = np.tensordot2 G1 H + np.tensordot2 G2 H.
Proof.
rewrite /np.tensordot2 -big_split; apply: eq_bigr => i _ /=.
by rewrite -big_split; apply: eq_bigr => j _ /=; rewrite mxE mulrDl.
Qed.

Lemma spacing1_gt0 : 0 < np.spacing1.
Proof. by rewrite /np.spacing1 invr_gt0 exprn_gt0 // ltr0n. Qed.

Section Metric.

Variable qr : forall n p : nat, 'M[R]_(n, p) -> 'M[R]_(n, p) * 'M[R]_p.
Variable svd : forall d : nat, 'M[R]_d -> 'M[R]_d * 'rV[R]_d * 'M[R]_d.
Variables (m n k : nat).

Implicit Types (X : point m n k) (Z : ambient m n).
Implicit Types (G H : _FixedRankTangentVector m n k).

Lemma innerE X G H :
  inner X G H = np.tensordot2 (Up G) (Up H) + np.tensordot2 (M G) (M H)
                + np.tensordot2 (Vp G) (Vp H).
Proof. by rewrite /inner Rplus_0_l. Qed.

Lemma fixed_inner_sym X G H : inner X G H = inner X H G.
Proof.
by rewrite !innerE (tensordot2_sym (Up G)) (tensordot2_sym (M G))
           (tensordot2_sym (Vp G)).
Qed.

Lemma inner_mul X G H (a : R) : inner X (__mul__ G a) H = a * inner X G H.
Proof. by rewrite !innerE /= !tensordot2_scale !mulrDr. Qed.

Lemma inner_add X G1 G2 H :
  inner X (__add__ G1 G2) H = inner X G1 H + inner X G2 H.
Proof.
rewrite !innerE /= !tensordot2_add.
by rewrite [RHS]addrACA [X in _ = X + _]addrACA.
Qed.

Lemma fixed_inner_ge0 X G : 0 <= inner X G G.
Proof. by rewrite innerE !addr_ge0 // tensordot2_ge0. Qed.

Lemma fixed_norm_unit X G :
  norm X G != 0 -> norm X (__mul__ G (norm X G)^-1) = 1.
Proof.
move=> hc; rewrite {1}/norm inner_mul fixed_inner_sym inner_mul.
have hq := sqrt_sqr_id (fixed_inner_ge0 X G).
rewrite -/(norm X G) in hq.
by rewrite -[inner X G G]hq mulrA mulrACA mulVf // mulr1 sqrt_one.
Qed.

Lemma retr_item1 X G j : svd_nonnegative svd (k + k) ->
  np.spacing1 <= item1 (retr qr svd X G) 0 j.
Proof.
move=> hsvd; rewrite /retr.
case: (qr (Up G)) => Qu Ru; case: (qr (Vp G)) => Qv Rv.
set T := block_mx _ _ _ _.
have := hsvd T (lshift k j); case: (svd T) => [[Ut St] Vt] /= hS.
by rewrite !mxE lerDr.
Qed.

Lemma rand_factors (randn_m : 'M[R]_(m, k)) rand_k (randn_n : 'M[R]_(n, k)) :
  qr_orthonormal qr m k -> qr_orthonormal qr n k ->
  orthonormal_factors (rand qr randn_m rand_k randn_n).
Proof.
move=> hm hn; rewrite /orthonormal_factors /rand /Stiefel.rand /=.
have := hm randn_m; have := hn randn_n.
case: (qr randn_m) => qm rm; case: (qr randn_n) => qn rn /= h1 h2.
by rewrite trmxK.
Qed.

Lemma rand_item1E (v : 'rV[R]_k) :
  [seq np.reversed (np.sort v) 0 i | i <- enum 'I_k]
  = rev (path.sort <=%O [seq v 0 j | j <- enum 'I_k]).
Proof.
set sl := path.sort _ _.
have hs : size sl = k by rewrite size_sort size_map size_enum_ord.
apply: (@eq_from_nth _ 0); first by rewrite size_map size_enum_ord size_rev.
move=> i; rewrite size_map size_enum_ord => hi.
rewrite (nth_map (Ordinal hi)) ?size_enum_ord // nth_rev ?hs //.
by rewrite !mxE /= nth_enum_ord.
Qed.

Lemma rand_item1_sorted (v : 'rV[R]_k) (i j : 'I_k) :
  (i <= j)%N -> np.reversed (np.sort v) 0 j <= np.reversed (np.sort v) 0 i.
Proof.
move=> hij; rewrite !mxE /=.
set sl := path.sort _ _.
have hs : size sl = k by rewrite size_sort size_map size_enum_ord.
apply: (le_sorted_leq_nth _ (sort_le_sorted _)); rewrite ?inE ?hs.
- exact: rev_ord_proof.
- exact: rev_ord_proof.
- by rewrite leq_sub2l.
Qed.

End Metric.

Section Ambient.

Variables (m n k : nat).

Implicit Types (X : point m n k) (Z : ambient m n).
Implicit Types (G H : _FixedRankTangentVector m n k).

Lemma to_ambient_add G H X :
  to_ambient (__add__ G H) X = to_ambient G X + to_ambient H X.
Proof.
rewrite /to_ambient /= [(_ + _)^T]linearD /= !mulmxDr !mulmxDl.
by rewrite [RHS]addrACA [X in _ = X + _]addrACA.
Qed.

Lemma to_ambient_mul G (a : R) X :
  to_ambient (__mul__ G a) X = a *: to_ambient G X.
Proof.
rewrite /to_ambient /= [(_ *: _)^T]linearZ /= -!scalemxAr -!scalemxAl.
by rewrite ?scalemxAl -?scalemxAl !scalerDr.
Qed.

Lemma to_ambient_neg G X : to_ambient (__neg__ G) X = - to_ambient G X.
Proof.
by rewrite /to_ambient /= [(- _)^T]linearN /= !mulmxN !mulNmx ?mulmxN !opprD.
Qed.

Lemma trace_zero_l (a b c : nat) (A : 'M[R]_(a, b)) (B : 'M[R]_(b, c))
  (C : 'M[R]_(c, a)) : A *m B = 0 -> \tr (A *m B *m C) = 0.
Proof. by move=> ->; rewrite mul0mx mxtrace0. Qed.

Lemma inner_ambient X G H :
  orthonormal_factors X -> tangent_at X G -> tangent_at X H ->
  inner X G H = \tr ((to_ambient G X)^T *m to_ambient H X).
Proof.
move=> [hU hV] hG hH.
have [gU gV] := hG; have /tangent_atP[gU' gV'] := hG.
have [hHU hHV] := hH; have /tangent_atP[hU' hV'] := hH.
rewrite innerE -tensordot2_trace /to_ambient.
case: G hG gU gV gU' gV' => gu gm gv /= _ gU gV gU' gV'.
case: H hH hHU hHV hU' hV' => hu hm hv /= _ hHU hHV hU' hV'.
set U := item0 X in hU gU gU' hHU hU' *.
set Vt := item2 X in hV gV gV' hHV hV' *.
have tdr (A B1 B2 : 'M[R]_(m, n)) :
    np.tensordot2 A (B1 + B2) = np.tensordot2 A B1 + np.tensordot2 A B2.
  by rewrite tensordot2_sym tensordot2_add !(tensordot2_sym A).
have t11 : np.tensordot2 (U *m gm *m Vt) (U *m hm *m Vt) = np.tensordot2 gm hm.
  normal_form;
    rewrite -(mulmxA _ U^T U) hU mulmx1 mxtrace_mulC !mulmxA hV.
  by rewrite mul1mx.
have t12 : np.tensordot2 (U *m gm *m Vt) (hu *m Vt) = 0.
  by normal_form;
    rewrite -(mulmxA _ U^T hu) hU' mulmx0 mul0mx mxtrace0.
have t13 : np.tensordot2 (U *m gm *m Vt) (U *m hv^T) = 0.
  normal_form;
    rewrite -(mulmxA _ U^T U) hU mulmx1 mxtrace_mulC !mulmxA hHV.
  by rewrite mul0mx mxtrace0.
have t21 : np.tensordot2 (gu *m Vt) (U *m hm *m Vt) = 0.
  by normal_form;
    rewrite -(mulmxA _ gu^T U) gU mulmx0 !mul0mx mxtrace0.
have t22 : np.tensordot2 (gu *m Vt) (hu *m Vt) = np.tensordot2 gu hu.
  by normal_form;
    rewrite mxtrace_mulC !mulmxA hV mul1mx.
have t23 : np.tensordot2 (gu *m Vt) (U *m hv^T) = 0.
  by normal_form;
    rewrite -(mulmxA _ gu^T U) gU mulmx0 mul0mx mxtrace0.
have t31 : np.tensordot2 (U *m gv^T) (U *m hm *m Vt) = 0.
  normal_form;
    rewrite -(mulmxA _ U^T U) hU mulmx1 mxtrace_mulC !mulmxA gV'.
  by rewrite mul0mx mxtrace0.
have t32 : np.tensordot2 (U *m gv^T) (hu *m Vt) = 0.
  by normal_form;
    rewrite -(mulmxA _ U^T hu) hU' mulmx0 mul0mx mxtrace0.
have t33 : np.tensordot2 (U *m gv^T) (U *m hv^T) = np.tensordot2 gv hv.
  normal_form;
    rewrite -(mulmxA _ U^T U) hU mulmx1 mxtrace_mulC.
  by rewrite -mxtrace_tr trmx_mul trmxK.
rewrite !tensordot2_add !tdr t11 t12 t13 t21 t22 t23 t31 t32 t33.
by rewrite !addr0 !add0r [X in _ = X + _]addrC.
Qed.

Lemma egrad2rgrad_diag X egrad a :
  M (egrad2rgrad X egrad) a a = egrad.1.2 0 a.
Proof.
case: egrad => [[e0 e1] e2]; rewrite /egrad2rgrad /= !mxE eqxx !mulr1n.
by rewrite !subrr !(mulr0, mul0r) !add0r.
Qed.

Lemma egrad2rgrad_tangent X egrad :
  orthonormal_factors X -> tangent_at X (egrad2rgrad X egrad).
Proof.
move=> [hU hV]; apply/tangent_atP.
case: egrad => [[e0 e1] e2]; rewrite /egrad2rgrad /=.
set U := item0 X in hU *; set Vt := item2 X in hV *.
have h1 : U^T *m (e0 - U *m (U^T *m e0)) = 0.
  by rewrite mulmxBr !mulmxA hU mul1mx subrr.
have h2 : Vt *m (e2^T - Vt^T *m (Vt *m e2^T)) = 0.
  by rewrite mulmxBr !mulmxA hV mul1mx subrr.
split; apply/matrixP => i j; rewrite [LHS]mxE [RHS]mxE.
- under eq_bigr => l _ do rewrite [X in _ * X]mxE mulrA.
  rewrite -mulr_suml.
  by move/matrixP/(_ i j): h1; rewrite [LHS]mxE [RHS]mxE => ->; rewrite mul0r.
- under eq_bigr => l _ do rewrite [X in _ * X]mxE mulrA.
  rewrite -mulr_suml.
  by move/matrixP/(_ i j): h2; rewrite [LHS]mxE [RHS]mxE => ->; rewrite mul0r.
Qed.

End Ambient.

Section Scaling.

Variables (m n k : nat).

Implicit Types (X : point m n k) (G H : _FixedRankTangentVector m n k).

Lemma tangent_mul X G (a : R) : tangent_at X G -> tangent_at X (__mul__ G a).
Proof.
move=> [h1 h2]; split; rewrite /= linearZ /= -scalemxAl ?h1 ?h2.
- by rewrite scaler0.
- by rewrite scaler0.
Qed.

Lemma to_ambient_sub G H X :
  to_ambient (__sub__ G H) X = to_ambient G X - to_ambient H X.
Proof.
have -> : __sub__ G H = __add__ G (__neg__ H) by [].
by rewrite to_ambient_add to_ambient_neg.
Qed.

End Scaling.

Lemma x11_orthonormal : orthonormal_factors Examples.x11.
Proof. by split; rewrite /= trmx1 mulmx1. Qed.

Lemma g11_tangent : tangent_at Examples.x11 Examples.g11.
Proof. by split; rewrite /= trmx0 mul0mx. Qed.

Lemma norm_g11 : norm Examples.x11 Examples.g11 = 1.
Proof.
rewrite /norm innerE /= !tensordot2_trace trmx0 trmx1 !mul0mx mulmx1.
by rewrite mxtrace0 mxtrace1 add0r addr0 sqrt_one.
Qed.

(** *** Properties of the operations *)

(** X13: at a point whose factors are orthonormal, [FixedRankEmbedded.proj]
    of an (m, n) matrix, or of a factored vector [(Uz, Sz, Vz)] with
    symmetric [Sz], satisfies the tangent constraints [Up' U = 0] and
    [Vp' V = 0]. *)
Theorem proj_result_is_tangent (m n k : nat) (X : point m n k)
  (Z : ambient m n) :
  orthonormal_factors X -> symmetric_core Z -> tangent_at X (proj X Z).
Proof. exact: fixed_proj_tangent. Qed.

Lemma proj_result_is_tangent_witness :
  tangent_at Examples.x11 (proj Examples.x11 (Dense 1%:M)).
Proof.
exact: (@proj_result_is_tangent 1 1 1 Examples.x11 (Dense 1%:M)
          x11_orthonormal I).
Defined.

(** X14: the ambient matrix of the projection of an (m, n) matrix [A] is
    [PU A + A PV - PU A PV], with [PU = U Ut] and [PV = V Vt] for
    [U = X[0]], [V = X[2].T]. *)
Theorem to_ambient_of_proj (m n k : nat) (X : point m n k)
  (A : 'M[R]_(m, n)) :
  let PU := item0 X *m (item0 X)^T in
  let PV := (item2 X)^T *m item2 X in
  to_ambient (proj X (Dense A)) X = PU *m A + A *m PV - PU *m A *m PV.
Proof. exact: to_ambient_proj. Qed.

(** X15: the triple that [tangent2ambient] returns stands for the matrix of
    [to_ambient]: its product [U S V'] is [X.U M X.V' + Up X.V' + X.U Vp'],
    and [_apply_ambient] and [_apply_ambient_transpose] multiply by that
    matrix and by its transpose. *)
Theorem tangent2ambient_represents (m n k c : nat) (X : point m n k)
  (G : _FixedRankTangentVector m n k) (W : 'M[R]_(n, c))
  (W' : 'M[R]_(m, c)) :
  [/\ ambient_matrix (tangent2ambient X G) = to_ambient G X,
      _apply_ambient (tangent2ambient X G) W = to_ambient G X *m W
    & _apply_ambient_transpose (tangent2ambient X G) W'
      = (to_ambient G X)^T *m W'].
Proof.
have [hA hS] := ambient_tangent2ambient X G.
by split; rewrite ?apply_ambientE ?(apply_ambient_transposeE _ hS) ?hA.
Qed.

(** X16: for a factored ambient vector [(Uz, Sz, Vz)] with symmetric [Sz],
    [_apply_ambient_transpose] multiplies by the transpose of
    [Uz Sz Vz'] (the code does not transpose [Sz]), and [proj] then depends
    on the vector only through the matrix it stands for. *)
Theorem factored_vectors_act_as_their_matrix (m n k c : nat)
  (X : point m n k) (Z : ambient m n) (W : 'M[R]_(m, c)) :
  symmetric_core Z ->
  _apply_ambient_transpose Z W = (ambient_matrix Z)^T *m W
  /\ proj X Z = proj X (Dense (ambient_matrix Z)).
Proof.
by move=> hS; split; [exact: apply_ambient_transposeE|exact: proj_dense].
Qed.

Lemma factored_vectors_act_as_their_matrix_witness :
  _apply_ambient_transpose (tangent2ambient Examples.x11 Examples.g11)
    (1%:M : 'M[R]_1)
  = (ambient_matrix (tangent2ambient Examples.x11 Examples.g11))^T *m 1%:M
  /\ proj Examples.x11 (tangent2ambient Examples.x11 Examples.g11)
     = proj Examples.x11
         (Dense (ambient_matrix
                   (tangent2ambient Examples.x11 Examples.g11))).
Proof.
apply: (@factored_vectors_act_as_their_matrix 1 1 1 1 Examples.x11
          (tangent2ambient Examples.x11 Examples.g11) 1%:M).
exact: trmx1.
Defined.

(** X17: at a point whose factors are orthonormal, [transp] from the point
    to itself leaves a tangent vector unchanged; so projecting the ambient
    form ([tangent2ambient]) of a projection gives the projection back. *)
Theorem transp_fixes_tangent_vectors (m n k : nat) (X : point m n k)
  (G : _FixedRankTangentVector m n k) (Z : ambient m n) :
  orthonormal_factors X ->
  (tangent_at X G -> transp X X G = G)
  /\ (symmetric_core Z ->
      proj X (tangent2ambient X (proj X Z)) = proj X Z).
Proof.
move=> hX; split; first exact: transp_tangent.
by move=> hS; apply: (transp_tangent hX); exact: fixed_proj_tangent.
Qed.

Lemma transp_fixes_tangent_vectors_witness :
  transp Examples.x11 Examples.x11 Examples.g11 = Examples.g11.
Proof.
exact: (proj1 (@transp_fixes_tangent_vectors 1 1 1 Examples.x11 Examples.g11
                 (Dense 1%:M) x11_orthonormal) g11_tangent).
Defined.

(** X18: a tangent triple [(Up, M, Vp)] passed to [proj] as it is (it is a
    tuple, so it is read as [(Uz, Sz, Vz)]) is projected to the zero
    tangent vector. *)
Theorem proj_of_a_tangent_triple (m n k : nat) (X : point m n k)
  (G : _FixedRankTangentVector m n k) :
  tangent_at X G -> proj X (as_tuple G) = zerovec X.
Proof. exact: proj_raw_tuple. Qed.

Lemma proj_of_a_tangent_triple_witness :
  proj Examples.x11 (as_tuple Examples.g11) = zerovec Examples.x11.
Proof.
exact: (@proj_of_a_tangent_triple 1 1 1 Examples.x11 Examples.g11 g11_tangent).
Defined.

(** X19: at a point whose factors are orthonormal, [_tangent] returns a
    triple that satisfies the tangent constraints and keeps [M]; a triple
    that satisfies them already is returned unchanged. *)
Theorem tangent_enforces_the_constraints (m n k : nat) (X : point m n k)
  (G : _FixedRankTangentVector m n k) :
  orthonormal_factors X ->
  [/\ tangent_at X (_tangent X G), M (_tangent X G) = M G
    & tangent_at X G -> _tangent X G = G].
Proof.
by move=> hX; split; [exact: tangent_tangent| |exact: tangent_fixed].
Qed.

Lemma tangent_enforces_the_constraints_witness :
  [/\ tangent_at Examples.x11 (_tangent Examples.x11 Examples.g11),
      M (_tangent Examples.x11 Examples.g11) = M Examples.g11
    & tangent_at Examples.x11 Examples.g11 ->
      _tangent Examples.x11 Examples.g11 = Examples.g11].
Proof.
exact: (@tangent_enforces_the_constraints 1 1 1 Examples.x11 Examples.g11
          x11_orthonormal).
Defined.

(** X20: at a point whose factors are orthonormal, when the triple that
    [randvec] normalises has a norm other than 0, [randvec] returns a
    tangent vector of norm 1. *)
Theorem fixed_rank_randvec_is_a_unit_tangent (m n k : nat)
  (randn_Up : 'M[R]_(m, k)) (randn_Vp : 'M[R]_(n, k)) (randn_M : 'M[R]_k)
  (X : point m n k) :
  orthonormal_factors X ->
  norm X (_tangent X (TangentVector randn_Up randn_M randn_Vp)) != 0 ->
  tangent_at X (randvec randn_Up randn_Vp randn_M X)
  /\ norm X (randvec randn_Up randn_Vp randn_M X) = 1.
Proof.
move=> hX hn; split; last exact: (fixed_norm_unit hn).
by apply: (@tangent_mul _ _ _ X (_tangent X _)); exact: tangent_tangent.
Qed.

Lemma fixed_rank_randvec_is_a_unit_tangent_witness :
  tangent_at Examples.x11 (randvec 0 0 1%:M Examples.x11)
  /\ norm Examples.x11 (randvec 0 0 1%:M Examples.x11) = 1.
Proof.
apply: (@fixed_rank_randvec_is_a_unit_tangent 1 1 1 0 0 1%:M Examples.x11
          x11_orthonormal).
by rewrite (tangent_fixed g11_tangent) norm_g11 oner_neq0.
Defined.

(** X21: [FixedRankEmbedded.inner] is symmetric, additive and homogeneous in
    its first vector (for [__add__] and [__mul__]), and not negative on a
    pair of equal vectors. *)
Theorem inner_is_a_symmetric_bilinear_form (m n k : nat) (X : point m n k)
  (G G' H : _FixedRankTangentVector m n k) (a : R) :
  [/\ inner X G H = inner X H G,
      inner X (__add__ G G') H = inner X G H + inner X G' H,
      inner X (__mul__ G a) H = a * inner X G H
    & 0 <= inner X G G].
Proof.
split; [exact: fixed_inner_sym|exact: inner_add|exact: inner_mul|].
exact: fixed_inner_ge0.
Qed.

(** X22: at a point whose factors are orthonormal, the inner product of two
    tangent vectors is the Frobenius inner product of their ambient
    matrices. *)
Theorem inner_is_the_ambient_frobenius (m n k : nat) (X : point m n k)
  (G H : _FixedRankTangentVector m n k) :
  orthonormal_factors X -> tangent_at X G -> tangent_at X H ->
  inner X G H = \tr ((to_ambient G X)^T *m to_ambient H X).
Proof. exact: inner_ambient. Qed.

Lemma inner_is_the_ambient_frobenius_witness :
  inner Examples.x11 Examples.g11 Examples.g11
  = \tr ((to_ambient Examples.g11 Examples.x11)^T
         *m to_ambient Examples.g11 Examples.x11).
Proof.
exact: (@inner_is_the_ambient_frobenius 1 1 1 Examples.x11 Examples.g11
          Examples.g11 x11_orthonormal g11_tangent g11_tangent).
Defined.

(** X23: [to_ambient] commutes with the arithmetic of tangent triples:
    [__add__], [__sub__], [__mul__] and [__neg__] become the sum, the
    difference, the multiple and the opposite of the ambient matrices. *)
Theorem to_ambient_is_linear (m n k : nat) (x : point m n k)
  (G H : _FixedRankTangentVector m n k) (a : R) :
  [/\ to_ambient (__add__ G H) x = to_ambient G x + to_ambient H x,
      to_ambient (__sub__ G H) x = to_ambient G x - to_ambient H x,
      to_ambient (__mul__ G a) x = a *: to_ambient G x
    & to_ambient (__neg__ G) x = - to_ambient G x].
Proof.
split; [exact: to_ambient_add|exact: to_ambient_sub|exact: to_ambient_mul|].
exact: to_ambient_neg.
Qed.

(** X24: when the singular values that [np.linalg.svd] returns are not
    negative, every entry of the [S] of [FixedRankEmbedded.retr] is at
    least [np.spacing(1)], so positive. *)
Theorem retr_singular_values_are_positive
  (qr : forall n p : nat, 'M[R]_(n, p) -> 'M[R]_(n, p) * 'M[R]_p)
  (svd : forall d : nat, 'M[R]_d -> 'M[R]_d * 'rV[R]_d * 'M[R]_d)
  (m n k : nat) (X : point m n k) (Z : _FixedRankTangentVector m n k)
  (j : 'I_k) :
  svd_nonnegative svd (k + k) ->
  np.spacing1 <= item1 (retr qr svd X Z) 0 j
  /\ 0 < item1 (retr qr svd X Z) 0 j.
Proof.
move=> hsvd; have h := retr_item1 qr X Z j hsvd; split=> //.
exact: lt_le_trans spacing1_gt0 h.
Qed.

Lemma svd_zero_nonnegative (d : nat) : svd_nonnegative Examples.svd_zero d.
Proof. by move=> T j; rewrite /Examples.svd_zero /= mxE. Qed.

Lemma retr_singular_values_are_positive_witness :
  np.spacing1
    <= item1 (retr Examples.qr_pid Examples.svd_zero Examples.x11
                Examples.g11) 0 ord0
  /\ 0 < item1 (retr Examples.qr_pid Examples.svd_zero Examples.x11
                  Examples.g11) 0 ord0.
Proof.
exact: (@retr_singular_values_are_positive Examples.qr_pid Examples.svd_zero
          1 1 1 Examples.x11 Examples.g11 ord0
          (@svd_zero_nonnegative (1 + 1))).
Defined.

(** X25: the [s] of [FixedRankEmbedded.rand] is the draws of
    [np.random.rand] in descending order (the same values, each as often);
    when the first factor of [np.linalg.qr] has orthonormal columns, [u] and
    [vt] are orthonormal. *)
Theorem rand_is_sorted_and_orthonormal
  (qr : forall n p : nat, 'M[R]_(n, p) -> 'M[R]_(n, p) * 'M[R]_p)
  (m n k : nat) (randn_m : 'M[R]_(m, k)) (rand_k : 'rV[R]_k)
  (randn_n : 'M[R]_(n, k)) :
  let X := rand qr randn_m rand_k randn_n in
  [/\ forall i j : 'I_k, (i <= j)%N -> item1 X 0 j <= item1 X 0 i,
      perm_eq [seq item1 X 0 i | i <- enum 'I_k]
              [seq rand_k 0 i | i <- enum 'I_k]
    & qr_orthonormal qr m k -> qr_orthonormal qr n k ->
      orthonormal_factors X].
Proof.
split; [exact: rand_item1_sorted| |exact: rand_factors].
by rewrite /= rand_item1E perm_rev perm_sort.
Qed.

Lemma rand_is_sorted_and_orthonormal_witness :
  orthonormal_factors
    (rand Examples.qr_pid Examples.e2 (const_mx 1 : 'rV[R]_1) Examples.e2).
Proof.
have [_ _ h] := @rand_is_sorted_and_orthonormal Examples.qr_pid (1 + 1)
                  (1 + 1) 1 Examples.e2 (const_mx 1) Examples.e2.
exact: (h StiefelTheory.qr_pid_orthonormal StiefelTheory.qr_pid_orthonormal).
Defined.

(** X26: at a point whose factors are orthonormal and whose singular values
    are not 0, [egrad2rgrad] returns a triple that satisfies the tangent
    constraints; the diagonal of its [M] is the gradient [df/dS]. *)
Theorem egrad2rgrad_is_tangent (m n k : nat) (x : point m n k)
  (egrad : 'M[R]_(m, k) * 'rV[R]_k * 'M[R]_(k, n)) :
  orthonormal_factors x -> (forall j, item1 x 0 j != 0) ->
  tangent_at x (egrad2rgrad x egrad)
  /\ forall a, M (egrad2rgrad x egrad) a a = egrad.1.2 0 a.
Proof.
move=> hx _; split; first exact: egrad2rgrad_tangent.
exact: egrad2rgrad_diag.
Qed.

Lemma egrad2rgrad_is_tangent_witness :
  tangent_at Examples.x11
    (egrad2rgrad Examples.x11 (1%:M, const_mx 1, 1%:M))
  /\ forall a, M (egrad2rgrad Examples.x11 (1%:M, const_mx 1, 1%:M)) a a
               = (const_mx 1 : 'rV[R]_1) 0 a.
Proof.
apply: (@egrad2rgrad_is_tangent 1 1 1 Examples.x11 (1%:M, const_mx 1, 1%:M)
          x11_orthonormal).
by move=> j; rewrite /= mxE oner_neq0.
Defined.

End FixedRankTheory.

(** ** Product manifolds *)

Module ProductTheory.

Import ProductVocabulary Blocks FixedRankVocabulary.

Lemma check_manifolds_cases manifolds :
  if all acceptable manifolds
  then exists2 ms, Product.check_manifolds manifolds = Ok ms
                      & size ms = size manifolds
  else is_ValueError (Product.check_manifolds manifolds).
Proof.
elim: manifolds => [|[[s|f|d]|ty] rest IH] //=; first by exists [::].
- case: (all acceptable rest) IH => [[ms -> hs]|].
    by exists (Product.MStiefel s :: ms); rewrite //= hs.
  by case: (Product.check_manifolds rest) => // ms [].
- case: (all acceptable rest) IH => [[ms -> hs]|].
    by exists (Product.MFixedRankEmbedded f :: ms); rewrite //= hs.
  by case: (Product.check_manifolds rest) => // ms [].
Qed.

Lemma init_cases manifolds :
  if (size manifolds != 0%N) && all acceptable manifolds
  then is_Ok (Product.__init__ manifolds)
  else is_ValueError (Product.__init__ manifolds).
Proof.
rewrite /Product.__init__; case: manifolds => [|a rest] //.
rewrite [size _ == _]/= andTb.
have := check_manifolds_cases (a :: rest).
case: (all acceptable (a :: rest)) => [[ms -> _]|].
  by rewrite /Product.Manifold__init__ /Product.__setattr__.
by case: (Product.check_manifolds (a :: rest)) => // ms [].
Qed.

Lemma pow_scale (N : nat) :
  (0 < N)%N ->
  let scale := np.pow N%:R (- 1 / 2%:R) in scale * scale = N%:R^-1.
Proof.
move=> hN /=; rewrite /np.pow.
have hN' : (0 < N%:R :> R) by rewrite ltr0n.
have /RltbP hR : Rltb 0 N%:R := hN'.
have h2 : 2%:R = IZR 2 :> R by rewrite mulr2n.
have e : Rplus (Rdiv (IZR (-1)) 2%:R) (Rdiv (IZR (-1)) 2%:R) = Ropp R1.
  by rewrite h2; Lra.lra.
have -> : Rpower N%:R (- 1 / 2%:R) * Rpower N%:R (- 1 / 2%:R)
          = Rpower N%:R (Ropp R1).
  by rewrite -e; exact: (esym (Rpower_plus _ _ _)).
by rewrite Rpower_Ropp Rpower_1.
Qed.

Lemma man_inner_sym (man : Product.factor) X G H :
  Product.man_inner (man := man) X G H = Product.man_inner X H G.
Proof.
case: man X G H => [n p k|m n k] X G H /=.
- exact: StiefelTheory.inner_sym.
- exact: FixedRankTheory.fixed_inner_sym.
Qed.

Lemma inner_terms_sym (mans : seq Product.factor) X G H :
  Product.inner_terms (mans := mans) X G H = Product.inner_terms X H G.
Proof.
elim: mans X G H => [|man mans IH] X G H //=.
by rewrite man_inner_sym IH.
Qed.

Lemma man_inner_scale (man : Product.factor) (a : R) X G H :
  Product.man_inner (man := man) X (Product.man_scale a G) H
  = a * Product.man_inner X G H.
Proof.
case: man X G H => [n p k|m n k] X G H /=.
- exact: StiefelTheory.inner_scale.
- exact: FixedRankTheory.inner_mul.
Qed.

Lemma man_randvec_unit (man : Product.factor) d X :
  nondegenerate (mans := [:: man]) (d, tt) (X, tt) ->
  Product.man_inner X (Product.man_randvec d X) (Product.man_randvec d X) = 1.
Proof.
case: man d X => [n p k|m n k] d X /= [hd _].
- have h := StiefelTheory.norm_unit hd.
  have := StiefelTheory.sqrt_sqr_id
            (StiefelTheory.inner_ge0 X (Stiefel.randvec d X)).
  by rewrite -StiefelTheory.norm_inner /Stiefel.randvec h mulr1 => <-.
- have h := FixedRankTheory.fixed_norm_unit hd.
  set v := FixedRankEmbedded.randvec _ _ _ _.
  have := StiefelTheory.sqrt_sqr_id (FixedRankTheory.fixed_inner_ge0 X v).
  by rewrite -/(FixedRankEmbedded.norm X v) [FixedRankEmbedded.norm X v]h
             mulr1 => <-.
Qed.

Lemma randvec_terms (a : R) (mans : seq Product.factor) d X :
  nondegenerate (mans := mans) d X ->
  let v := Product.scaled_randvecs a d X in
  \sum_(t <- Product.inner_terms X v v) t = (size mans)%:R * (a * a).
Proof.
elim: mans d X => [|man mans IH] d X /=; first by rewrite big_nil mul0r.
move=> hd; rewrite big_cons.
have [h1 h2] : nondegenerate (mans := [:: man]) (d.1, tt) (X.1, tt)
               /\ nondegenerate d.2 X.2.
  by case: man d X hd {IH} => [n p k|m n k] d X /= [].
rewrite (IH _ _ h2) man_inner_scale man_inner_sym man_inner_scale.
by rewrite (man_randvec_unit h1) mulr1 -add1n natrD mulrDl mul1r.
Qed.

Lemma man_proj_idem (man : Product.factor) X U :
  is_stiefel man -> valid_point (mans := [:: man]) (X, tt) ->
  Product.man_proj X (Product.man_as_ambient (Product.man_proj X U))
  = Product.man_proj (man := man) X U.
Proof.
case: man X U => [n p k|m n k] X U //= _ [hX _].
exact: StiefelTheory.proj_idem.
Qed.

Lemma product_proj_idem (mans : seq Product.factor) X U :
  all is_stiefel mans -> valid_point (mans := mans) X ->
  Product.proj X (Product.as_ambient (Product.proj X U)) = Product.proj X U.
Proof.
elim: mans X U => [|man mans IH] X U //= /andP[hs hss] hX.
have [h1 h2] : valid_point (mans := [:: man]) (X.1, tt) /\ valid_point X.2.
  by case: man X U hX hs {IH} => [n p k|m n k] X U /= [].
by rewrite (man_proj_idem _ hs h1) IH.
Qed.

(** *** Properties of the class *)

(** X27: the constructor of [Product] raises a [ValueError] exactly when it
    is given no argument, or an argument that is not a manifold or is itself a
    [Product]; on every other input the construction returns the
    manifold. *)
Theorem init_raises_exactly_on_bad_arguments (manifolds : seq Product.pyobj) :
  (is_ValueError (Product.__init__ manifolds)
   <-> manifolds = [::] \/ ~~ all acceptable manifolds)
  /\ (is_Ok (Product.__init__ manifolds)
      <-> ~ (manifolds = [::] \/ ~~ all acceptable manifolds)).
Proof.
have hP : reflect (manifolds = [::] \/ ~~ all acceptable manifolds)
                  (~~ ((size manifolds != 0%N) && all acceptable manifolds)).
  rewrite negb_and negbK.
  by apply: (iffP orP) => [[/eqP/size0nil ->|h]|[->|h]];
     [left|right|left|right].
apply: (raise_or_ok hP); have := init_cases manifolds.
by case: ((size manifolds != 0%N) && all acceptable manifolds).
Qed.

(** X29: on a product with at least one factor, when the draws are not
    degenerate (every factor normalises a vector of norm other than 0),
    [Product.randvec] returns a vector of norm 1: each factor contributes
    [1 / N] to the squared norm. *)
Theorem randvec_has_unit_norm (mans : seq Product.factor)
  (draws : Product.list_of Product.draws_of mans)
  (X : Product.list_of Product.point_of mans) :
  (0 < size mans)%N -> nondegenerate draws X ->
  Product.norm X (Product.randvec draws X) = 1.
Proof.
move=> hN hd; rewrite /Product.norm /Product.inner /Product.randvec.
rewrite (randvec_terms _ hd) (pow_scale hN) divff ?pnatr_eq0 -?lt0n //.
exact: StiefelTheory.sqrt_one.
Qed.

Lemma randvec_has_unit_norm_witness :
  Product.norm (mans := [:: Product.FStiefel (1 + 1) 1 1]) (Examples.e1, tt)
    (Product.randvec (mans := [:: Product.FStiefel (1 + 1) 1 1])
       (Examples.e2, tt) (Examples.e1, tt)) = 1.
Proof.
apply: (@randvec_has_unit_norm [:: Product.FStiefel (1 + 1) 1 1]
          (Examples.e2, tt) (Examples.e1, tt) (erefl _)).
split=> //=.
rewrite (@StiefelTheory.proj_fixed (1 + 1) 1 1 _ _ StiefelTheory.e2_tangent).
have -> : np.norm2 Examples.e2 = 1 by exact: StiefelTheory.norm_e2.
exact: oner_neq0.
Defined.

(** X30: on a product of Stiefel manifolds, at a point whose entries have
    orthonormal columns, [Product.proj] is idempotent; and [Product.inner]
    is symmetric on every product. *)
Theorem proj_is_idempotent_on_stiefel_factors (mans : seq Product.factor)
  (X : Product.list_of Product.point_of mans)
  (U : Product.list_of Product.ambient_of mans)
  (G H : Product.list_of Product.tangent_of mans) :
  Product.inner X G H = Product.inner X H G
  /\ (all is_stiefel mans -> valid_point X ->
      Product.proj X (Product.as_ambient (Product.proj X U))
      = Product.proj X U).
Proof.
split; last exact: product_proj_idem.
by rewrite /Product.inner inner_terms_sym.
Qed.

Lemma proj_is_idempotent_on_stiefel_factors_witness :
  Product.proj (mans := [:: Product.FStiefel (1 + 1) 1 1]) (Examples.e1, tt)
    (Product.as_ambient (mans := [:: Product.FStiefel (1 + 1) 1 1])
       (Product.proj (mans := [:: Product.FStiefel (1 + 1) 1 1])
          (Examples.e1, tt) (Examples.e2, tt)))
  = Product.proj (mans := [:: Product.FStiefel (1 + 1) 1 1])
      (Examples.e1, tt) (Examples.e2, tt).
Proof.
apply: (proj2 (@proj_is_idempotent_on_stiefel_factors
                 [:: Product.FStiefel (1 + 1) 1 1] (Examples.e1, tt)
                 (Examples.e2, tt) (Examples.e2, tt) (Examples.e2, tt))) => //.
by split=> //; exact: StiefelTheory.e1_orthonormal.
Defined.

End ProductTheory.

(** ** The operations of the three classes *)

Module OperationsTheory.

Import multi Blocks FixedRankVocabulary ProductVocabulary.

Lemma rand_item1_ge0 (k : nat) (v : 'rV[R]_k) (i : 'I_k) :
  (forall j, 0 <= v 0 j) -> 0 <= np.reversed (np.sort v) 0 i.
Proof.
move=> hv; rewrite !mxE /=.
set sl := path.sort _ _.
have hs : size sl = k by rewrite size_sort size_map size_enum_ord.
have : nth 0 sl (rev_ord i) \in sl by rewrite mem_nth // hs.
by rewrite mem_sort => /mapP[j _ ->].
Qed.

(** C9: [Stiefel.inner(X, G, H)] is the Frobenius inner product of [G] and
    [H], summed over the blocks; it is symmetric in [G] and [H] and does not
    depend on the point. *)
Theorem Stiefel_inner_is_the_frobenius_product (n p k : nat)
  (X Y G H : ndarray k n p) :
  [/\ Stiefel.inner X G H = frobenius G H,
      Stiefel.inner X G H = Stiefel.inner X H G
    & Stiefel.inner Y G H = Stiefel.inner X G H].
Proof.
split; [exact: StiefelTheory.inner_frobenius|exact: StiefelTheory.inner_sym|].
by rewrite !StiefelTheory.inner_frobenius.
Qed.

(** C4: when the singular values that [np.linalg.svd] returns are not
    negative, every entry of the [S] that [FixedRankEmbedded.retr] returns
    is positive, so none is zero. *)
Theorem retr_never_returns_a_zero_singular_value
  (qr : forall n p : nat, 'M[R]_(n, p) -> 'M[R]_(n, p) * 'M[R]_p)
  (svd : forall d : nat, 'M[R]_d -> 'M[R]_d * 'rV[R]_d * 'M[R]_d)
  (m n k : nat) (X : FixedRankEmbedded.point m n k)
  (Z : FixedRankEmbedded._FixedRankTangentVector m n k) (j : 'I_k) :
  svd_nonnegative svd (k + k) ->
  let S := FixedRankEmbedded.item1 (FixedRankEmbedded.retr qr svd X Z) in
   0 < S 0 j /\ S 0 j != 0.
Proof.
move=> hsvd /=.
have h := FixedRankTheory.retr_item1 qr X Z j hsvd.
have h0 := lt_le_trans FixedRankTheory.spacing1_gt0 h.
by split=> //; rewrite gt_eqF.
Qed.

Lemma retr_never_returns_a_zero_singular_value_witness :
  let S := FixedRankEmbedded.item1
             (FixedRankEmbedded.retr Examples.qr_pid Examples.svd_zero
                Examples.x11 Examples.g11) in
  0 < S 0 ord0 /\ S 0 ord0 != 0.
Proof.
exact: (@retr_never_returns_a_zero_singular_value Examples.qr_pid
          Examples.svd_zero 1 1 1 Examples.x11 Examples.g11 ord0
          (@FixedRankTheory.svd_zero_nonnegative (1 + 1))).
Defined.

(** C6: when the first factor of [np.linalg.qr] has orthonormal columns and
    the draws of [np.random.rand] are not negative, the triple (u, s, vt)
    of [FixedRankEmbedded.rand] is a point: [u] is (m, k) with orthonormal
    columns, [vt] is (k, n) with orthonormal rows, and the entries of [s]
    are not negative and in descending order. *)
Theorem rand_satisfies_the_point_invariants
  (qr : forall n p : nat, 'M[R]_(n, p) -> 'M[R]_(n, p) * 'M[R]_p)
  (m n k : nat) (randn_m : 'M[R]_(m, k)) (rand_k : 'rV[R]_k)
  (randn_n : 'M[R]_(n, k)) :
  qr_orthonormal qr m k -> qr_orthonormal qr n k ->
  (forall j, 0 <= rand_k 0 j) ->
  let X := FixedRankEmbedded.rand qr randn_m rand_k randn_n in
  let u : 'M[R]_(m, k) := FixedRankEmbedded.item0 X in
  let s : 'rV[R]_k := FixedRankEmbedded.item1 X in
  let vt : 'M[R]_(k, n) := FixedRankEmbedded.item2 X in
  [/\ u^T *m u = 1%:M, vt *m vt^T = 1%:M, forall i, 0 <= s 0 i
    & forall i j : 'I_k, (i <= j)%N -> s 0 j <= s 0 i].
Proof.
move=> hm hn hr /=.
have [hu hv] := FixedRankTheory.rand_factors randn_m rand_k randn_n hm hn.
split=> //.
- by move=> i; exact: rand_item1_ge0.
- by move=> i j; exact: FixedRankTheory.rand_item1_sorted.
Qed.

Lemma rand_satisfies_the_point_invariants_witness :
  let X := FixedRankEmbedded.rand Examples.qr_pid Examples.e2
             (const_mx 1 : 'rV[R]_1) Examples.e2 in
  let u : 'M[R]_(1 + 1, 1) := FixedRankEmbedded.item0 X in
  let s : 'rV[R]_1 := FixedRankEmbedded.item1 X in
  let vt : 'M[R]_(1, 1 + 1) := FixedRankEmbedded.item2 X in
  [/\ u^T *m u = 1%:M, vt *m vt^T = 1%:M, forall i, 0 <= s 0 i
    & forall i j : 'I_1, (i <= j)%N -> s 0 j <= s 0 i].
Proof.
apply: (@rand_satisfies_the_point_invariants Examples.qr_pid (1 + 1) (1 + 1) 1
          Examples.e2 (const_mx 1) Examples.e2
          StiefelTheory.qr_pid_orthonormal StiefelTheory.qr_pid_orthonormal).
by move=> j; rewrite mxE ler01.
Defined.

(** The sign correction keeps orthonormal columns orthonormal. *)
Lemma unflip_orthonormal (n p : nat) (q : 'M[R]_(n, p)) (r : 'M[R]_p) :
  q^T *m q = 1%:M ->
  (q *m Stiefel.unflip r)^T *m (q *m Stiefel.unflip r) = 1%:M.
Proof.
move=> hq; rewrite trmx_mul StiefelTheory.unflip_tr mulmxA.
by rewrite -(mulmxA _ q^T) hq mulmx1 StiefelTheory.unflip_sq.
Qed.

Lemma exp_orthonormal (expm : forall d : nat, 'M[R]_d -> 'M[R]_d)
  (n p k : nat) (X U : ndarray k n p) :
  orthonormal X -> tangent X U ->
  (forall i : 'I_k,
     expm_preserves_forms expm
       (block_mx ((block X i)^T *m block U i) (- (block U i)^T *m block U i)
                 1%:M ((block X i)^T *m block U i))) ->
  (forall i : 'I_k,
     expm_preserves_forms expm (- (block X i)^T *m block U i)) ->
  orthonormal (Stiefel.exp expm X U).
Proof.
move=> hX hU hW hE i; rewrite -> StiefelTheory.block_exp.
exact: (StiefelTheory.exp_block_orthonormal (hX i) (hU i) (hW i) (hE i)).
Qed.

(** C5: the sign correction of [Stiefel.retr] is a diagonal matrix of 1 and
    -1, so it keeps orthonormal columns orthonormal.  When the first factor
    of [np.linalg.qr] has orthonormal columns, the results of [Stiefel.rand]
    and [Stiefel.retr] have orthonormal columns in every block; and at a
    point [X] with orthonormal columns and a tangent vector [G], when
    [scipy.linalg.expm] maps the matrices that [Stiefel.exp] exponentiates
    to matrices preserving the bilinear forms they are skew-adjoint for, the
    result of [Stiefel.exp] has orthonormal columns in every block. *)
Theorem Stiefel_outputs_have_orthonormal_columns
  (qr : forall n p : nat, 'M[R]_(n, p) -> 'M[R]_(n, p) * 'M[R]_p)
  (expm : forall d : nat, 'M[R]_d -> 'M[R]_d)
  (n p k : nat) (X G randn : ndarray k n p)
  (q : 'M[R]_(n, p)) (r : 'M[R]_p) :
  [/\ Stiefel.unflip r = diag_mx (\row_i (if 0 <= r i i then 1 else -1)),
      q^T *m q = 1%:M ->
      (q *m Stiefel.unflip r)^T *m (q *m Stiefel.unflip r) = 1%:M,
      qr_orthonormal qr n p ->
      orthonormal (Stiefel.rand qr randn)
      /\ orthonormal (Stiefel.retr qr X G)
    & orthonormal X -> tangent X G ->
      (forall i : 'I_k,
         expm_preserves_forms expm
           (block_mx ((block X i)^T *m block G i)
                     (- (block G i)^T *m block G i)
                     1%:M ((block X i)^T *m block G i))) ->
      (forall i : 'I_k,
         expm_preserves_forms expm (- (block X i)^T *m block G i)) ->
      orthonormal (Stiefel.exp expm X G)].
Proof.
split.
- exact: StiefelTheory.unflipE.
- exact: unflip_orthonormal.
- move=> hqr; split=> i.
  + rewrite -> StiefelTheory.block_rand; rewrite /Stiefel.rand.
    by have := hqr (block randn i); case: (qr n p (block randn i)).
  + rewrite -> StiefelTheory.block_retr.
    by apply: StiefelTheory.retr_block_orthonormal; exact: hqr.
- exact: exp_orthonormal.
Qed.

Lemma Stiefel_outputs_have_orthonormal_columns_witness :
  [/\ ((Examples.e1 : 'M[R]_(1 + 1, 1)) *m Stiefel.unflip (1%:M : 'M[R]_1))^T
      *m (Examples.e1 *m Stiefel.unflip (1%:M : 'M[R]_1)) = 1%:M,
      orthonormal (Stiefel.rand Examples.qr_pid (k := 1) Examples.e2)
      /\ orthonormal
           (Stiefel.retr Examples.qr_pid (k := 1) Examples.e1 Examples.e2)
    & orthonormal (k := 1)
        (Stiefel.exp Examples.expm_linear (k := 1) Examples.e1 0)].
Proof.
split.
- have [_ h _ _] :=
    @Stiefel_outputs_have_orthonormal_columns Examples.qr_pid
      Examples.expm_linear (1 + 1) 1 1 Examples.e1 0 Examples.e2
      Examples.e1 1%:M.
  exact: (h (StiefelTheory.e1_orthonormal ord0)).
- have [_ _ h _] :=
    @Stiefel_outputs_have_orthonormal_columns Examples.qr_pid
      Examples.expm_linear (1 + 1) 1 1 Examples.e1 Examples.e2 Examples.e2
      Examples.e1 1%:M.
  exact: (h StiefelTheory.qr_pid_orthonormal).
- have [_ _ _ h] :=
    @Stiefel_outputs_have_orthonormal_columns Examples.qr_pid
      Examples.expm_linear (1 + 1) 1 1 Examples.e1 0 Examples.e2
      Examples.e1 1%:M.
  apply: (h StiefelTheory.e1_orthonormal).
  + by move=> i; rewrite /block mulmx0 trmx0 oppr0.
  + move=> i; apply: StiefelTheory.expm_linear_preserves.
    rewrite /block !mulmx0 mulmx_block.
    by rewrite !(mulmx0, mul0mx, addr0); exact: block_mx0.
  + move=> i; apply: StiefelTheory.expm_linear_preserves.
    by rewrite /block !mulmx0.
Defined.

(** C1: at a point with orthonormal columns, [Stiefel.proj] is idempotent,
    and so is [Product.proj] on a product of Stiefel manifolds.  At a point
    of [FixedRankEmbedded] with orthonormal factors, for an (m, n) matrix or
    a factored vector [(Uz, Sz, Vz)] with symmetric [Sz], the tangent triple
    that [proj] returns, given back to [proj] as it is, is read as a
    factored vector and projected to the zero tangent vector; given back
    through [tangent2ambient], it is projected to itself. *)
Theorem proj_is_idempotent_on_ambient_vectors (n p k m' n' k' : nat)
  (X U : ndarray k n p)
  (X' : FixedRankEmbedded.point m' n' k') (Z : FixedRankEmbedded.ambient m' n')
  (mans : seq Product.factor)
  (Xs : Product.list_of Product.point_of mans)
  (Us : Product.list_of Product.ambient_of mans) :
  [/\ orthonormal X -> Stiefel.proj X (Stiefel.proj X U) = Stiefel.proj X U,
      orthonormal_factors X' -> symmetric_core Z ->
      FixedRankEmbedded.proj X'
        (FixedRankEmbedded.tangent2ambient X' (FixedRankEmbedded.proj X' Z))
      = FixedRankEmbedded.proj X' Z
      /\ FixedRankEmbedded.proj X'
           (FixedRankEmbedded.as_tuple (FixedRankEmbedded.proj X' Z))
         = FixedRankEmbedded.zerovec X'
    & all is_stiefel mans -> valid_point Xs ->
      Product.proj Xs (Product.as_ambient (Product.proj Xs Us))
      = Product.proj Xs Us].
Proof.
split.
- exact: StiefelTheory.proj_idem.
- move=> hX hZ; have hT := FixedRankTheory.fixed_proj_tangent hX hZ.
  split; first exact: (FixedRankTheory.transp_tangent hX hT).
  exact: FixedRankTheory.proj_raw_tuple.
- exact: ProductTheory.product_proj_idem.
Qed.

Lemma proj_is_idempotent_on_ambient_vectors_witness :
  let mans := [:: Product.FStiefel (1 + 1) 1 1] in
  [/\ Stiefel.proj (k := 1) Examples.e1
        (Stiefel.proj (k := 1) Examples.e1 Examples.e2)
      = Stiefel.proj (k := 1) Examples.e1 Examples.e2,
      FixedRankEmbedded.proj Examples.x11
        (FixedRankEmbedded.tangent2ambient Examples.x11
           (FixedRankEmbedded.proj Examples.x11
              (FixedRankEmbedded.Dense 1%:M)))
      = FixedRankEmbedded.proj Examples.x11 (FixedRankEmbedded.Dense 1%:M)
      /\ FixedRankEmbedded.proj Examples.x11
           (FixedRankEmbedded.as_tuple
              (FixedRankEmbedded.proj Examples.x11
                 (FixedRankEmbedded.Dense 1%:M)))
         = FixedRankEmbedded.zerovec Examples.x11
    & Product.proj (mans := mans) (Examples.e1, tt)
        (Product.as_ambient (mans := mans)
           (Product.proj (mans := mans) (Examples.e1, tt) (Examples.e2, tt)))
      = Product.proj (mans := mans) (Examples.e1, tt) (Examples.e2, tt)].
Proof.
have [h1 h2 h3] :=
  @proj_is_idempotent_on_ambient_vectors (1 + 1) 1 1 1 1 1
    Examples.e1 Examples.e2 Examples.x11 (FixedRankEmbedded.Dense 1%:M)
    [:: Product.FStiefel (1 + 1) 1 1] (Examples.e1, tt) (Examples.e2, tt).
split.
- exact: (h1 StiefelTheory.e1_orthonormal).
- exact: (h2 FixedRankTheory.x11_orthonormal I).
- apply: h3 => //.
  by split=> //; exact: StiefelTheory.e1_orthonormal.
Defined.

(** The tangent triple that [FixedRankEmbedded.proj] returns for the 1 x 1
    matrix [1] at the point [([[1]], [1], [[1]])] is [(0, [[1]], 0)]; given
    back to [proj], it is projected to the zero triple. *)
Lemma FixedRank_proj_is_not_idempotent :
  let X := Examples.x11 in
  let Z := FixedRankEmbedded.Dense (1%:M : 'M[R]_1) in
  orthonormal_factors X
  /\ FixedRankEmbedded.proj X
       (FixedRankEmbedded.as_tuple (FixedRankEmbedded.proj X Z))
     <> FixedRankEmbedded.proj X Z.
Proof.
split; first exact: FixedRankTheory.x11_orthonormal.
have hT : tangent_at Examples.x11
            (FixedRankEmbedded.proj Examples.x11
               (FixedRankEmbedded.Dense 1%:M)).
  exact: (FixedRankTheory.fixed_proj_tangent FixedRankTheory.x11_orthonormal).
rewrite (FixedRankTheory.proj_raw_tuple hT).
move/(congr1 (@FixedRankEmbedded.M _ _ _)).
rewrite /FixedRankEmbedded.zerovec /FixedRankEmbedded.proj /=.
rewrite !trmx1 !mulmx1 => /matrixP/(_ ord0 ord0)/esym/eqP.
by rewrite !mxE /= oner_eq0.
Qed.







End OperationsTheory.
